(** * Morse code signalling device: a shallow embedding of [gpiointerrupt.c]

    The program drives two LEDs to spell one of several preset messages in
    Morse code.  A periodic tick calls [signal_message], which advances a
    cursor (message, character, symbol, phase) by one phase step; two button
    handlers request the following or the previous message, and the main loop
    applies the request once the message in progress has ended.

    C integers are modelled as [Z] with their wrap-around written out, C
    strings as [string] read through [c_index] (which yields the terminating
    NUL at index [length] and fails beyond it), global variables as the
    record [Globals], and reads outside an array as [None]. *)

From Stdlib Require Import ZArith String Ascii List Bool Lia.
Import ListNotations.
Open Scope Z_scope.

(** ** C integer types of the target (32-bit ARM, 8-bit char, 16-bit short) *)

Module CInt.

Definition to_uchar (z : Z) : Z := z mod 256.
Definition to_ushort (z : Z) : Z := z mod 65536.

(** Conversion to [short int]: values that do not fit wrap to negatives. *)
Definition to_short (z : Z) : Z :=
  let r := z mod 65536 in if r <? 32768 then r else r - 65536.

Definition in_uchar (z : Z) : Prop := 0 <= z < 256.
Definition in_ushort (z : Z) : Prop := 0 <= z < 65536.

End CInt.

(** ** C strings *)

Definition NUL : ascii := Ascii.zero.

Definition is_nul (c : ascii) : bool := Ascii.eqb c NUL.

(** [s[i]] for a string literal [s]: the characters, then the terminating
    NUL; an index past the terminator is outside the array. *)
Definition c_index (s : string) (i : Z) : option ascii :=
  if i <? 0 then None
  else String.get (Z.to_nat i) (s ++ String NUL EmptyString).

Definition strlen (s : string) : Z := Z.of_nat (String.length s).

(** ** The Morse table: [get_morse] *)

Definition get_morse (character : ascii) : string :=
  match character with
  | "a"%char => ".-"
  | "b"%char => "-..."
  | "c"%char => "-.-."
  | "d"%char => "-.."
  | "e"%char => "."
  | "f"%char => "..-."
  | "g"%char => "--."
  | "h"%char => "...."
  | "i"%char => ".."
  | "j"%char => ".---"
  | "k"%char => "-.-"
  | "l"%char => ".-.."
  | "m"%char => "--"
  | "n"%char => "-."
  | "o"%char => "---"
  | "p"%char => ".--."
  | "q"%char => "--.-"
  | "r"%char => ".-."
  | "s"%char => "..."
  | "t"%char => "-"
  | "u"%char => "..-"
  | "v"%char => "...-"
  | "w"%char => ".--"
  | "x"%char => "-..-"
  | "y"%char => "-.--"
  | "z"%char => "--.."
  | _ => " "
  end%string.

(** ** LEDs *)

(** Modelled from the spec: the pins [CONFIG_GPIO_LED_0] and
    [CONFIG_GPIO_LED_1] are macros of [ti_drivers_config.h], which is not
    among the sources; they name the two indicator lights. *)
Inductive gpio_pin : Type := CONFIG_GPIO_LED_0 | CONFIG_GPIO_LED_1.

(** The levels of the two LED pins. *)
Record Leds : Type := mkLeds { led_0 : bool; led_1 : bool }.

(** Modelled from the spec: the levels [CONFIG_GPIO_LED_ON] and
    [CONFIG_GPIO_LED_OFF] are macros of [ti_drivers_config.h]; "on" is
    [true]. *)
Definition CONFIG_GPIO_LED_ON : bool := true.
Definition CONFIG_GPIO_LED_OFF : bool := false.

(** Modelled from the spec: [GPIO_write] belongs to the GPIO driver, whose
    code is not among the sources; it is the light-on/off write primitive
    and asserts the given level on the given pin. *)
Definition GPIO_write (pin : gpio_pin) (level : bool) (l : Leds) : Leds :=
  match pin with
  | CONFIG_GPIO_LED_0 => mkLeds level (led_1 l)
  | CONFIG_GPIO_LED_1 => mkLeds (led_0 l) level
  end.

(** The light patterns of the specification. *)
Definition pattern_off : Leds := mkLeds false false.
Definition pattern_A : Leds := mkLeds true false.
Definition pattern_B : Leds := mkLeds false true.

(** ** Global variables *)

Record Globals : Type := mkGlobals {
  message_ended : Z;        (* volatile short int *)
  button_pressed : Z;       (* volatile unsigned char *)
  next_message_index : Z;   (* volatile unsigned char *)
  message_index : Z;        (* short unsigned int *)
  character_index : Z;      (* short unsigned int *)
  symbol_index : Z;         (* short unsigned int *)
  phase : Z;                (* short unsigned int *)
  leds : Leds;              (* the levels of the two LED pins *)
  led_calls : list Leds     (* one entry per completed call of set_leds, oldest first *)
}.

Definition set_message_ended (v : Z) (g : Globals) : Globals :=
  mkGlobals v (button_pressed g) (next_message_index g) (message_index g)
            (character_index g) (symbol_index g) (phase g) (leds g) (led_calls g).
Definition set_button_pressed (v : Z) (g : Globals) : Globals :=
  mkGlobals (message_ended g) v (next_message_index g) (message_index g)
            (character_index g) (symbol_index g) (phase g) (leds g) (led_calls g).
Definition set_next_message_index (v : Z) (g : Globals) : Globals :=
  mkGlobals (message_ended g) (button_pressed g) v (message_index g)
            (character_index g) (symbol_index g) (phase g) (leds g) (led_calls g).
Definition set_message_index (v : Z) (g : Globals) : Globals :=
  mkGlobals (message_ended g) (button_pressed g) (next_message_index g) v
            (character_index g) (symbol_index g) (phase g) (leds g) (led_calls g).
Definition set_character_index (v : Z) (g : Globals) : Globals :=
  mkGlobals (message_ended g) (button_pressed g) (next_message_index g) (message_index g)
            v (symbol_index g) (phase g) (leds g) (led_calls g).
Definition set_symbol_index (v : Z) (g : Globals) : Globals :=
  mkGlobals (message_ended g) (button_pressed g) (next_message_index g) (message_index g)
            (character_index g) v (phase g) (leds g) (led_calls g).
Definition set_phase (v : Z) (g : Globals) : Globals :=
  mkGlobals (message_ended g) (button_pressed g) (next_message_index g) (message_index g)
            (character_index g) (symbol_index g) v (leds g) (led_calls g).
Definition set_led_state (l : Leds) (calls : list Leds) (g : Globals) : Globals :=
  mkGlobals (message_ended g) (button_pressed g) (next_message_index g) (message_index g)
            (character_index g) (symbol_index g) (phase g) l calls.

(** The values the globals are initialised with; both LEDs are switched off
    by [configure_board]. *)
Definition initial_globals : Globals :=
  mkGlobals 0 0 0 0 0 0 0 pattern_off [].

(** array of messages *)
Definition messages : list string := ["ss"; "oo"; "sos"]%string.
Definition num_messages : Z := 3.

(** lengths of Morse code symbols *)
Definition dot_len : Z := 2.
Definition dash_len : Z := 4.
Definition character_pause_len : Z := 2.
Definition word_pause_len : Z := 4.

(** ** Switching the LEDs *)

Definition set_leds (led_settings : Z) (g : Globals) : Globals :=
  (* assume both off *)
  let l := GPIO_write CONFIG_GPIO_LED_0 CONFIG_GPIO_LED_OFF (leds g) in
  let l := GPIO_write CONFIG_GPIO_LED_1 CONFIG_GPIO_LED_OFF l in
  (* switch red on *)
  let l := if negb (Z.land 1 led_settings =? 0)
           then GPIO_write CONFIG_GPIO_LED_0 CONFIG_GPIO_LED_ON l else l in
  (* switch green on *)
  let l := if negb (Z.land 2 led_settings =? 0)
           then GPIO_write CONFIG_GPIO_LED_1 CONFIG_GPIO_LED_ON l else l in
  set_led_state l (led_calls g ++ [l]) g.

(** ** Signalling symbols and pauses

    Each helper receives [phase] by value.  [signal_dot] and [signal_dash]
    assign to that parameter, so they are modelled as returning the final
    value of their local copy next to the globals. *)

Definition signal_dot (phase : Z) (g : Globals) : Z * Globals :=
  if phase <=? 0 then (phase, set_leds 1 g)
  else let g := set_leds 0 g in (0, g).

Definition signal_dash (phase : Z) (g : Globals) : Z * Globals :=
  if phase <=? 2 then (phase, set_leds 2 g)
  else let g := set_leds 0 g in (0, g).

(** Inter-character pause *)
Definition character_pause (phase : Z) (g : Globals) : Globals :=
  if phase <=? 1 then set_leds 0 g else g.

(** Inter-word/message pause *)
Definition word_pause (phase : Z) (g : Globals) : Globals :=
  if phase <=? 3 then set_leds 0 g else g.

(** ** The signalling engine: [signal_message] *)

Notation "x <- e ;; k" :=
  (match e with Some x => k | None => None end)
  (at level 61, e at next level, right associativity).

Definition signal_message (msgs : list string) (g : Globals) : option Globals :=
  message <- nth_error msgs (Z.to_nat (message_index g)) ;;
  (* iterate over characters in message *)
  character <- c_index message (character_index g) ;;
  if negb (is_nul character) then
    (* assume that message is still in progress *)
    let g := set_message_ended 0 g in
    (* iterate over symbols in character *)
    symbol <- c_index (get_morse character) (symbol_index g) ;;
    if negb (is_nul symbol) then
      (* signal current symbol, phase by phase *)
      if Ascii.eqb symbol "." then
        if phase g <? dot_len then
          let g := snd (signal_dot (CInt.to_short (phase g)) g) in
          Some (set_phase (CInt.to_ushort (phase g + 1)) g)
        else
          let g := set_symbol_index (CInt.to_ushort (symbol_index g + 1)) g in
          _ <- c_index (get_morse character) (symbol_index g) ;;
          Some (set_phase 0 g)
      else if Ascii.eqb symbol "-" then
        if phase g <? dash_len then
          let g := snd (signal_dash (phase g) g) in
          Some (set_phase (CInt.to_ushort (phase g + 1)) g)
        else
          let g := set_symbol_index (CInt.to_ushort (symbol_index g + 1)) g in
          _ <- c_index (get_morse character) (symbol_index g) ;;
          Some (set_phase 0 g)
      else
        (* space and unknown symbols *)
        if phase g <? word_pause_len then
          let g := word_pause (phase g) g in
          Some (set_phase (CInt.to_ushort (phase g + 1)) g)
        else
          (* get next symbol and reset phase to 0 *)
          let g := set_symbol_index (CInt.to_ushort (symbol_index g + 1)) g in
          _ <- c_index (get_morse character) (symbol_index g) ;;
          Some (set_phase 0 g)
    else
      (* pause between characters *)
      if phase g <=? character_pause_len then
        let g := character_pause (phase g) g in
        Some (set_phase (CInt.to_ushort (phase g + 1)) g)
      else
        (* get next character and reset symbol_index and phase to 0 *)
        let g := set_character_index (CInt.to_ushort (character_index g + 1)) g in
        _ <- c_index message (character_index g) ;;
        Some (set_phase 0 (set_symbol_index 0 g))
  else
    (* pause between messages *)
    if phase g <=? word_pause_len then
      let g := word_pause (phase g) g in
      Some (set_phase (CInt.to_ushort (phase g + 1)) g)
    else
      (* set message_ended flag to 1 and reset phase, symbol_index and
         character_index to 0 *)
      Some (set_character_index 0 (set_symbol_index 0 (set_phase 0
             (set_message_ended 1 g)))).

(** [n] successive calls of [signal_message]. *)
Fixpoint run (n : nat) (msgs : list string) (g : Globals) : option Globals :=
  match n with
  | O => Some g
  | S n' => g' <- signal_message msgs g ;; run n' msgs g'
  end.

(** The LED patterns written by the calls of [set_leds] made by one
    [signal_message] call, as a suffix of [led_calls]. *)
Definition emitted (before after : Globals) : list Leds :=
  skipn (List.length (led_calls before)) (led_calls after).

(** ** Selecting a message: the button handlers and the main loop *)

Definition normalize_message_index (index : Z) : Z :=
  CInt.to_ushort (Z.rem (CInt.to_ushort index) num_messages).

Definition gpioButtonFxn0 (g : Globals) : Globals :=
  if button_pressed g =? 0 then
    let g := set_next_message_index (CInt.to_uchar (next_message_index g + 1)) g in
    set_button_pressed 1 g
  else g.

Definition gpioButtonFxn1 (g : Globals) : Globals :=
  if button_pressed g =? 0 then
    let g := set_next_message_index
               (CInt.to_uchar (next_message_index g + num_messages - 1)) g in
    set_button_pressed 1 g
  else g.

(** The test of the main loop's second [if]: a different message has been
    requested and the current message has reached its end. *)
Definition apply_condition (g : Globals) : bool :=
  negb (next_message_index g =? message_index g) && (message_ended g =? 1).

(** The second [if] of the main loop.  The chained assignment stores the
    normalised index in [next_message_index] (an unsigned char) and the
    stored value in [message_index]. *)
Definition try_apply (g : Globals) : Globals :=
  if apply_condition g then
    let v := CInt.to_uchar (normalize_message_index (next_message_index g)) in
    let g := set_next_message_index v g in
    let g := set_message_index (CInt.to_ushort v) g in
    let g := set_message_ended 0 g in
    set_button_pressed 0 g
  else g.

Definition checkPeriod : Z := 500.

(** One iteration of the loop of [mainThread], up to the wait for the timer;
    [checkTime] is the loop's local counter (unsigned long, 32 bits). *)
Definition mainThread_iteration (msgs : list string) (checkTime : Z) (g : Globals)
  : option (Z * Globals) :=
  g <- (if checkPeriod <=? checkTime then signal_message msgs g else Some g) ;;
  let g := try_apply g in
  Some ((checkTime + 100) mod 2 ^ 32, g).

(** ** Reading the cursor *)

(** The character the cursor is at: [messages[message_index][character_index]]. *)
Definition current_character (msgs : list string) (g : Globals) : option ascii :=
  message <- nth_error msgs (Z.to_nat (message_index g)) ;;
  c_index message (character_index g).

(** The symbol the cursor is at, while a character is being played:
    [get_morse(character)[symbol_index]]. *)
Definition current_symbol (msgs : list string) (g : Globals) : option ascii :=
  character <- current_character msgs g ;;
  if is_nul character then None
  else c_index (get_morse character) (symbol_index g).

(** The call of [signal_message] on [g] takes the branch that assigns
    [message_ended = 1]. *)
Definition sets_message_ended (msgs : list string) (g : Globals) : bool :=
  match current_character msgs g with
  | Some character => is_nul character && negb (phase g <=? word_pause_len)
  | None => false
  end.

(** ** The cursor invariant

    [phase_bound slack] is the largest value of [phase] in the activity the
    cursor is in: the length of the symbol, or the length of the pause plus
    [slack]. *)
Definition phase_bound (slack : Z) (msgs : list string) (g : Globals) : option Z :=
  character <- current_character msgs g ;;
  if is_nul character then Some (word_pause_len + slack)
  else
    symbol <- c_index (get_morse character) (symbol_index g) ;;
    if is_nul symbol then Some (character_pause_len + slack)
    else if Ascii.eqb symbol "." then Some dot_len
    else if Ascii.eqb symbol "-" then Some dash_len
    else Some word_pause_len.

Definition cursor_inv_with (slack : Z) (msgs : list string) (g : Globals) : bool :=
  match nth_error msgs (Z.to_nat (message_index g)) with
  | None => false
  | Some message =>
      (0 <=? message_index g) &&
      (0 <=? character_index g) && (character_index g <=? strlen message) &&
      match c_index message (character_index g) with
      | None => false
      | Some character =>
          (0 <=? symbol_index g) &&
          (symbol_index g <=? strlen (get_morse character)) &&
          match phase_bound slack msgs g with
          | None => false
          | Some b => (0 <=? phase g) && (phase g <=? b)
          end
      end
  end.

(** The invariant in the words of the specification: [phase] is bounded by
    the length of the active symbol or pause. *)
Definition spec_cursor_inv : list string -> Globals -> bool := cursor_inv_with 0.

(** The invariant the code maintains: in a pause [phase] reaches the
    length of the pause plus one. *)
Definition cursor_inv : list string -> Globals -> bool := cursor_inv_with 1.

(** ** The system: ticks, the loop's selection test, and button presses *)

Inductive button : Type := CONFIG_GPIO_BUTTON_0 | CONFIG_GPIO_BUTTON_1.

(** The callback [configure_board] installs for each button. *)
Definition press (b : button) (g : Globals) : Globals :=
  match b with
  | CONFIG_GPIO_BUTTON_0 => gpioButtonFxn0 g
  | CONFIG_GPIO_BUTTON_1 => gpioButtonFxn1 g
  end.

Inductive event : Type :=
| Tick                (* the main loop calls signal_message *)
| Apply               (* the main loop runs its selection test *)
| Press (b : button). (* interrupt: the callback of button b runs *)

Definition do_event (e : event) (g : Globals) : option Globals :=
  match e with
  | Tick => signal_message messages g
  | Apply => Some (try_apply g)
  | Press b => Some (press b g)
  end.

Fixpoint exec (evs : list event) (g : Globals) : option Globals :=
  match evs with
  | [] => Some g
  | e :: evs' => g' <- do_event e g ;; exec evs' g'
  end.

(** The states the program can be in: those a sequence of events leads to
    from the initial values of the globals. *)
Definition reachable (g : Globals) : Prop :=
  exists evs, exec evs initial_globals = Some g.

(** ** International Morse code

    The reference the table of [get_morse] is compared with: the letters of
    the international Morse code (ITU-R M.1677), in alphabetical order. *)
Definition international_morse : list (ascii * string) :=
  [ ("a"%char, ".-");   ("b"%char, "-..."); ("c"%char, "-.-."); ("d"%char, "-..");
    ("e"%char, ".");    ("f"%char, "..-."); ("g"%char, "--.");  ("h"%char, "....");
    ("i"%char, "..");   ("j"%char, ".---"); ("k"%char, "-.-");  ("l"%char, ".-..");
    ("m"%char, "--");   ("n"%char, "-.");   ("o"%char, "---");  ("p"%char, ".--.");
    ("q"%char, "--.-"); ("r"%char, ".-.");  ("s"%char, "...");  ("t"%char, "-");
    ("u"%char, "..-");  ("v"%char, "...-"); ("w"%char, ".--");  ("x"%char, "-..-");
    ("y"%char, "-.--"); ("z"%char, "--..") ]%string.

Fixpoint assoc (c : ascii) (table : list (ascii * string)) : option string :=
  match table with
  | [] => None
  | (k, v) :: rest => if Ascii.eqb c k then Some v else assoc c rest
  end.

Definition is_lowercase (c : ascii) : bool :=
  let n := Z.of_nat (nat_of_ascii c) in (97 <=? n) && (n <=? 122).

Fixpoint dots_and_dashes (s : string) : bool :=
  match s with
  | EmptyString => true
  | String c rest =>
      (Ascii.eqb c "." || Ascii.eqb c "-") && dots_and_dashes rest
  end.

(** ** The length of a traversal, in calls of [signal_message] *)

(** A dot or a dash takes one call per phase below its length and one call
    to move on; so does a placeholder symbol with the word pause length. *)
Definition symbol_steps (symbol : ascii) : nat :=
  if Ascii.eqb symbol "." then 3
  else if Ascii.eqb symbol "-" then 5
  else 5.

Fixpoint symbols_steps (code : string) : nat :=
  match code with
  | EmptyString => 0
  | String symbol rest => symbol_steps symbol + symbols_steps rest
  end.

(** A character: its symbols, three calls of pause and one call to move on. *)
Definition character_steps (character : ascii) : nat :=
  symbols_steps (get_morse character) + 4.

Fixpoint characters_steps (message : string) : nat :=
  match message with
  | EmptyString => 0
  | String character rest => character_steps character + characters_steps rest
  end.

(** A message: its characters, five calls of pause and the call that sets
    [message_ended]. *)
Definition traversal_steps (message : string) : nat :=
  characters_steps message + 6.

Fixpoint nul_free (s : string) : bool :=
  match s with
  | EmptyString => true
  | String c rest => negb (is_nul c) && nul_free rest
  end.

(** ** Auxiliary notions for the statements *)

(** What a call of [set_leds] leaves alone. *)
Definition same_variables (g g' : Globals) : Prop :=
  message_ended g' = message_ended g /\
  button_pressed g' = button_pressed g /\
  next_message_index g' = next_message_index g /\
  message_index g' = message_index g /\
  character_index g' = character_index g /\
  symbol_index g' = symbol_index g /\
  phase g' = phase g.

(** The number of calls a symbol is signalled for before the cursor moves
    on, as tested by the three cases of the [switch]. *)
Definition symbol_len (symbol : ascii) : Z :=
  if Ascii.eqb symbol "." then dot_len
  else if Ascii.eqb symbol "-" then dash_len
  else word_pause_len.

(** The pattern written while a symbol is signalled at a phase below its
    length: what [signal_dot], [signal_dash] and [word_pause] pass to
    [set_leds]. *)
Definition symbol_pattern (symbol : ascii) (phase : Z) : Leds :=
  if Ascii.eqb symbol "." then (if phase <=? 0 then pattern_A else pattern_off)
  else if Ascii.eqb symbol "-" then (if phase <=? 2 then pattern_B else pattern_off)
  else pattern_off.

(** No call among the first [n] takes the branch that sets [message_ended]. *)
Fixpoint quiet (n : nat) (msgs : list string) (g : Globals) : bool :=
  match n with
  | O => true
  | S n' =>
      negb (sets_message_ended msgs g) &&
      match signal_message msgs g with
      | Some g' => quiet n' msgs g'
      | None => false
      end
  end.

(** The cursor is at the start of its message. *)
Definition at_start (g : Globals) : Prop :=
  character_index g = 0 /\ symbol_index g = 0 /\ phase g = 0.

(** The patterns a playback of "ss" writes according to scenario 1 of the
    specification. *)
Definition spec_ss_patterns : list Leds :=
  [pattern_A; pattern_A; pattern_off; pattern_off;
   pattern_A; pattern_A; pattern_off; pattern_off;
   pattern_off; pattern_off;
   pattern_off; pattern_off; pattern_off; pattern_off].

(** The patterns one 's' writes: three dots, each one call on and one call
    off, and two calls of character pause. *)
Definition s_patterns : list Leds :=
  [pattern_A; pattern_off; pattern_A; pattern_off; pattern_A; pattern_off;
   pattern_off; pattern_off].

(** [message_ended] after each of the first [n] calls, oldest first. *)
Fixpoint message_ended_history (n : nat) (msgs : list string) (g : Globals)
  : list Z :=
  match n with
  | O => []
  | S n' =>
      match signal_message msgs g with
      | Some g' => message_ended g' :: message_ended_history n' msgs g'
      | None => []
      end
  end.

(** [n] calls lead from [g] to [g'], none of them setting [message_ended]. *)
Definition quietly (n : nat) (msgs : list string) (g g' : Globals) : Prop :=
  run n msgs g = Some g' /\ quiet n msgs g = true.

(** ** The invariant of the whole program

    The message index is valid; either no press is pending and the requested
    index is the current one, or one press is pending and the requested
    index is one step ahead or one step behind (modulo the number of
    messages); the cursor invariant holds; and [message_ended] is raised
    only with the cursor at the start of the message. *)
Definition system_inv (g : Globals) : Prop :=
  0 <= message_index g < num_messages /\
  ((button_pressed g = 0 /\ next_message_index g = message_index g) \/
   (button_pressed g = 1 /\
    (next_message_index g = message_index g + 1 \/
     next_message_index g = message_index g + num_messages - 1))) /\
  cursor_inv messages g = true /\
  (message_ended g = 0 \/ (message_ended g = 1 /\ at_start g)).

(** ** The patterns of a message

    What the LEDs show for a symbol, a character and a message, read off
    the helpers: a dot is one call of A and one of "off", a dash three calls
    of B and one of "off", a placeholder symbol four calls of "off"; a
    character ends with two calls of "off" and a message with four. *)
Definition symbol_patterns (symbol : ascii) : list Leds :=
  if Ascii.eqb symbol "." then [pattern_A; pattern_off]
  else if Ascii.eqb symbol "-"
       then [pattern_B; pattern_B; pattern_B; pattern_off]
       else [pattern_off; pattern_off; pattern_off; pattern_off].

Fixpoint code_patterns (code : string) : list Leds :=
  match code with
  | EmptyString => []
  | String symbol rest => symbol_patterns symbol ++ code_patterns rest
  end.

Definition character_patterns (character : ascii) : list Leds :=
  code_patterns (get_morse character) ++ [pattern_off; pattern_off].

Fixpoint characters_patterns (message : string) : list Leds :=
  match message with
  | EmptyString => []
  | String character rest =>
      character_patterns character ++ characters_patterns rest
  end.

Definition message_patterns (message : string) : list Leds :=
  characters_patterns message ++
  [pattern_off; pattern_off; pattern_off; pattern_off].

(** The patterns written by [n] successive calls of [signal_message]. *)
Fixpoint patterns_run (n : nat) (msgs : list string) (g : Globals) : list Leds :=
  match n with
  | O => []
  | S n' =>
      match signal_message msgs g with
      | Some g' => emitted g g' ++ patterns_run n' msgs g'
      | None => []
      end
  end.

(** The patterns of the phases [p], [p + 1], ... of an activity whose call
    at phase [q] writes [out q]. *)
Fixpoint phase_patterns (out : Z -> list Leds) (p : Z) (k : nat) : list Leds :=
  match k with
  | O => []
  | S k' => out p ++ phase_patterns out (p + 1) k'
  end.

(** ** Selecting by button

    A press of button [b], the ticks that play the current message to its
    end, and the selection test of the main loop. *)
Definition current_message (g : Globals) : string :=
  nth (Z.to_nat (message_index g)) messages EmptyString.

Definition select_events (b : button) (g : Globals) : list event :=
  Press b :: repeat Tick (traversal_steps (current_message g)) ++ [Apply].

Definition play_and_select (b : button) (g : Globals) : option Globals :=
  exec (select_events b g) g.

(** The step a button makes in the list of messages. *)
Definition button_step (b : button) : Z :=
  match b with
  | CONFIG_GPIO_BUTTON_0 => 1
  | CONFIG_GPIO_BUTTON_1 => num_messages - 1
  end.

Definition is_press (e : event) : bool :=
  match e with Press _ => true | _ => false end.

(** ** The loop of [mainThread] *)

Fixpoint mainThread_loop (n : nat) (msgs : list string) (checkTime : Z)
         (g : Globals) : option (Z * Globals) :=
  match n with
  | O => Some (checkTime, g)
  | S n' =>
      match mainThread_iteration msgs checkTime g with
      | Some (checkTime', g') => mainThread_loop n' msgs checkTime' g'
      | None => None
      end
  end.

(** ** Decoding

    The letter a Morse code stands for, by the international table. *)
Fixpoint morse_letter (code : string) (table : list (ascii * string))
  : option ascii :=
  match table with
  | [] => None
  | (letter, c) :: rest =>
      if String.eqb code c then Some letter else morse_letter code rest
  end.

(** * Properties *)

(** ** Integer conversions *)

Module CIntFacts.
Import CInt.

Lemma to_uchar_range z : in_uchar (to_uchar z).
Proof. unfold in_uchar, to_uchar. apply Z.mod_pos_bound. lia. Qed.

Lemma to_ushort_range z : in_ushort (to_ushort z).
Proof. unfold in_ushort, to_ushort. apply Z.mod_pos_bound. lia. Qed.

Lemma to_ushort_small z : 0 <= z < 65536 -> to_ushort z = z.
Proof. intros H. unfold to_ushort. apply Z.mod_small. exact H. Qed.

Lemma to_uchar_small z : 0 <= z < 256 -> to_uchar z = z.
Proof. intros H. unfold to_uchar. apply Z.mod_small. exact H. Qed.

Lemma to_short_small z : 0 <= z < 32768 -> to_short z = z.
Proof.
  intros H. unfold to_short. rewrite Z.mod_small by lia.
  destruct (z <? 32768) eqn:E; [reflexivity | apply Z.ltb_ge in E; lia].
Qed.

(** Incrementing an unsigned short never leaves [0 .. z + 1]. *)
Lemma to_ushort_succ_le z : 0 <= z -> 0 <= to_ushort (z + 1) <= z + 1.
Proof.
  intros H. unfold to_ushort. split.
  - apply Z.mod_pos_bound. lia.
  - apply Z.mod_le; lia.
Qed.

End CIntFacts.

(** ** Reading C strings *)

Section CStrings.

Lemma get_terminated (s : string) (n : nat) :
  String.get n (s ++ String NUL EmptyString) =
  if (n <? String.length s)%nat then String.get n s
  else if (n =? String.length s)%nat then Some NUL else None.
Proof.
  revert n. induction s as [|c s IH]; intros [|n].
  - reflexivity.
  - destruct n; reflexivity.
  - reflexivity.
  - cbn [append String.get String.length]. rewrite IH. reflexivity.
Qed.

Lemma get_in_range (s : string) (n : nat) :
  (n < String.length s)%nat -> exists c, String.get n s = Some c.
Proof.
  revert n. induction s as [|c s IH]; intros [|n] H; simpl in *; try lia.
  - eauto.
  - apply IH. lia.
Qed.

Lemma get_nul_free (s : string) (n : nat) (c : ascii) :
  nul_free s = true -> String.get n s = Some c -> is_nul c = false.
Proof.
  revert n. induction s as [|a s IH]; intros [|n] Hf H; simpl in *; try discriminate.
  - apply andb_true_iff in Hf. destruct Hf as [Ha _].
    injection H as <-. now apply negb_true_iff in Ha.
  - apply andb_true_iff in Hf. destruct Hf as [_ Hs]. eauto.
Qed.

Lemma c_index_bounds (s : string) (i : Z) (c : ascii) :
  c_index s i = Some c -> 0 <= i <= strlen s.
Proof.
  unfold c_index, strlen. destruct (i <? 0) eqn:Hneg; [discriminate|].
  apply Z.ltb_ge in Hneg. rewrite get_terminated.
  destruct (Nat.ltb_spec (Z.to_nat i) (String.length s)); [lia|].
  destruct (Nat.eqb_spec (Z.to_nat i) (String.length s)); [lia|discriminate].
Qed.

Lemma c_index_non_nul (s : string) (i : Z) (c : ascii) :
  c_index s i = Some c -> is_nul c = false -> 0 <= i < strlen s.
Proof.
  unfold c_index, strlen. destruct (i <? 0) eqn:Hneg; [discriminate|].
  apply Z.ltb_ge in Hneg. rewrite get_terminated.
  destruct (Nat.ltb_spec (Z.to_nat i) (String.length s)); [lia|].
  destruct (Nat.eqb_spec (Z.to_nat i) (String.length s)); [|discriminate].
  intros [= <-]. discriminate.
Qed.

Lemma c_index_defined (s : string) (i : Z) :
  0 <= i <= strlen s -> exists c, c_index s i = Some c.
Proof.
  unfold c_index, strlen. intros H.
  destruct (i <? 0) eqn:Hneg; [apply Z.ltb_lt in Hneg; lia|].
  rewrite get_terminated.
  destruct (Nat.ltb_spec (Z.to_nat i) (String.length s)) as [Hlt|Hge].
  - now apply get_in_range.
  - destruct (Nat.eqb_spec (Z.to_nat i) (String.length s)); [eauto|lia].
Qed.

Lemma c_index_terminator (s : string) : c_index s (strlen s) = Some NUL.
Proof.
  unfold c_index, strlen.
  destruct (Z.of_nat (String.length s) <? 0) eqn:Hneg;
    [apply Z.ltb_lt in Hneg; lia|].
  rewrite get_terminated, Nat2Z.id, Nat.ltb_irrefl, Nat.eqb_refl. reflexivity.
Qed.

(** The read that follows an increment of an index at a non-NUL character
    stays inside the array. *)
Lemma c_index_next (s : string) (i : Z) (c : ascii) :
  c_index s i = Some c -> is_nul c = false ->
  exists c', c_index s (CInt.to_ushort (i + 1)) = Some c'.
Proof.
  intros H Hc. pose proof (c_index_non_nul _ _ _ H Hc) as Hi.
  apply c_index_defined.
  pose proof (CIntFacts.to_ushort_succ_le i). lia.
Qed.

End CStrings.

(** ** The Morse table *)

(** C7. [get_morse] is a total function: each of the 26 lowercase letters
    is mapped to its code in the international Morse alphabet, a non-empty
    string of dots and dashes, and every other character, the space
    included, is mapped to the placeholder string that holds one space. *)
Theorem get_morse_international :
  map fst international_morse =
    map ascii_of_nat (seq 97 26) /\
  forall character : ascii,
    if is_lowercase character
    then assoc character international_morse = Some (get_morse character) /\
         dots_and_dashes (get_morse character) = true /\
         get_morse character <> EmptyString
    else get_morse character = " "%string.
Proof.
  split; [reflexivity|].
  intros [[] [] [] [] [] [] [] []]; vm_compute;
    first [reflexivity | repeat split; discriminate].
Qed.

(** ** The button handlers *)

Lemma button_latched (b : button) (g : Globals) :
  button_pressed g <> 0 -> press b g = g.
Proof.
  intros H. destruct b; simpl;
    unfold gpioButtonFxn0, gpioButtonFxn1;
    destruct (Z.eqb_spec (button_pressed g) 0); congruence.
Qed.

Lemma gpioButtonFxn0_latches (g : Globals) : button_pressed (gpioButtonFxn0 g) <> 0.
Proof.
  unfold gpioButtonFxn0. destruct (Z.eqb_spec (button_pressed g) 0); simpl; lia.
Qed.

Lemma gpioButtonFxn1_latches (g : Globals) : button_pressed (gpioButtonFxn1 g) <> 0.
Proof.
  unfold gpioButtonFxn1. destruct (Z.eqb_spec (button_pressed g) 0); simpl; lia.
Qed.

Lemma presses_latched (bs : list button) (g : Globals) :
  button_pressed g <> 0 -> fold_left (fun g b => press b g) bs g = g.
Proof.
  intros H. induction bs as [|b bs IH]; simpl; [reflexivity|].
  rewrite (button_latched b g H). exact IH.
Qed.

(** C8. Pressing button 0 twice leaves the globals, and so
    [next_message_index], as one press does; after one press any further
    presses of either button change nothing, as long as the main loop has
    not cleared [button_pressed]. *)
Theorem gpioButtonFxn0_idempotent :
  forall g : Globals,
    gpioButtonFxn0 (gpioButtonFxn0 g) = gpioButtonFxn0 g /\
    next_message_index (gpioButtonFxn0 (gpioButtonFxn0 g)) =
      next_message_index (gpioButtonFxn0 g) /\
    forall bs : list button,
      fold_left (fun g b => press b g) bs (gpioButtonFxn0 g) = gpioButtonFxn0 g.
Proof.
  intros g.
  assert (H : forall bs, fold_left (fun g b => press b g) bs (gpioButtonFxn0 g)
                         = gpioButtonFxn0 g).
  { intros bs. apply presses_latched, gpioButtonFxn0_latches. }
  pose proof (H [CONFIG_GPIO_BUTTON_0]) as H1. simpl in H1.
  repeat split; [exact H1 | now rewrite H1 | exact H].
Qed.

(** ** The signalling helpers *)

Lemma set_leds_frame (led_settings : Z) (g : Globals) :
  same_variables g (set_leds led_settings g) /\
  exists pattern, led_calls (set_leds led_settings g) = led_calls g ++ [pattern].
Proof.
  unfold set_leds, same_variables. simpl. repeat split. eauto.
Qed.

(** C10. [signal_dot] and [signal_dash] work on a copy of [phase]: after
    a call the message, character and symbol indices, the phase counter and
    [message_ended] (and the selection variables) are as before, whatever
    value was passed, and the call has made exactly one call of [set_leds]. *)
Theorem signal_dot_dash_frame :
  forall (local_phase : Z) (g : Globals),
    (same_variables g (snd (signal_dot local_phase g)) /\
     (exists led_settings, snd (signal_dot local_phase g) = set_leds led_settings g) /\
     exists pattern,
       led_calls (snd (signal_dot local_phase g)) = led_calls g ++ [pattern]) /\
    (same_variables g (snd (signal_dash local_phase g)) /\
     (exists led_settings, snd (signal_dash local_phase g) = set_leds led_settings g) /\
     exists pattern,
       led_calls (snd (signal_dash local_phase g)) = led_calls g ++ [pattern]).
Proof.
  intros p g. unfold signal_dot, signal_dash.
  destruct (p <=? 0), (p <=? 2); simpl;
    repeat split; try (eexists; reflexivity).
Qed.

(** ** One call of [signal_message], case by case *)

Section Step.

Variable msgs : list string.

Lemma skipn_length_app (A : Type) (l l' : list A) :
  skipn (List.length l) (l ++ l') = l'.
Proof. induction l as [|a l IH]; simpl; [reflexivity | exact IH]. Qed.

Lemma emitted_nothing (g g' : Globals) :
  led_calls g' = led_calls g -> emitted g g' = [].
Proof. intros H. unfold emitted. rewrite H. apply skipn_all. Qed.

Lemma current_symbol_inv (g : Globals) (symbol : ascii) :
  current_symbol msgs g = Some symbol ->
  exists message character,
    nth_error msgs (Z.to_nat (message_index g)) = Some message /\
    c_index message (character_index g) = Some character /\
    is_nul character = false /\
    c_index (get_morse character) (symbol_index g) = Some symbol.
Proof.
  unfold current_symbol, current_character.
  destruct (nth_error msgs _) as [m|] eqn:Hm; [|discriminate].
  destruct (c_index m _) as [c|] eqn:Hc; [|discriminate].
  destruct (is_nul c) eqn:E; [discriminate|].
  intros H. exists m, c. repeat split; assumption.
Qed.

(** A dot, a dash or a placeholder symbol. *)
Lemma step_symbol (g : Globals) (symbol : ascii) :
  current_symbol msgs g = Some symbol -> is_nul symbol = false ->
  0 <= phase g < 65536 ->
  exists g', signal_message msgs g = Some g' /\
    message_ended g' = 0 /\
    button_pressed g' = button_pressed g /\
    next_message_index g' = next_message_index g /\
    message_index g' = message_index g /\
    character_index g' = character_index g /\
    if phase g <? symbol_len symbol
    then emitted g g' = [symbol_pattern symbol (phase g)] /\
         symbol_index g' = symbol_index g /\ phase g' = phase g + 1
    else emitted g g' = [] /\
         symbol_index g' = CInt.to_ushort (symbol_index g + 1) /\ phase g' = 0.
Proof.
  intros Hs Hn Hp.
  destruct (current_symbol_inv g symbol Hs) as (m & c & Hm & Hc & Hcn & Hsym).
  destruct (c_index_next _ _ _ Hsym Hn) as [c' Hnext].
  unfold signal_message, symbol_len, symbol_pattern.
  rewrite Hm, Hc, Hcn.
  cbn [negb symbol_index set_message_ended phase].
  rewrite Hsym, Hn. cbn [negb].
  destruct (Ascii.eqb symbol ".") eqn:Edot; [|destruct (Ascii.eqb symbol "-") eqn:Edash].
  - destruct (Z.ltb_spec (phase g) dot_len) as [Hlt|Hge].
    + unfold dot_len in Hlt.
      rewrite CIntFacts.to_short_small by lia.
      unfold signal_dot, emitted.
      destruct (phase g <=? 0); cbn -[CInt.to_ushort];
        rewrite CIntFacts.to_ushort_small by lia;
        (eexists; split; [reflexivity|]); cbn;
        rewrite skipn_length_app; repeat split.
    + cbn [symbol_index set_symbol_index]. rewrite Hnext.
      eexists. split; [reflexivity|]. cbn. repeat split. now apply emitted_nothing.
  - destruct (Z.ltb_spec (phase g) dash_len) as [Hlt|Hge].
    + unfold dash_len in Hlt.
      unfold signal_dash, emitted.
      destruct (phase g <=? 2); cbn -[CInt.to_ushort];
        rewrite CIntFacts.to_ushort_small by lia;
        (eexists; split; [reflexivity|]); cbn;
        rewrite skipn_length_app; repeat split.
    + cbn [symbol_index set_symbol_index]. rewrite Hnext.
      eexists. split; [reflexivity|]. cbn. repeat split. now apply emitted_nothing.
  - destruct (Z.ltb_spec (phase g) word_pause_len) as [Hlt|Hge].
    + unfold word_pause_len in Hlt.
      unfold word_pause, emitted.
      destruct (Z.leb_spec (phase g) 3); [|lia].
      cbn -[CInt.to_ushort];
        rewrite CIntFacts.to_ushort_small by lia;
        (eexists; split; [reflexivity|]); cbn;
        rewrite skipn_length_app; repeat split.
    + cbn [symbol_index set_symbol_index]. rewrite Hnext.
      eexists. split; [reflexivity|]. cbn. repeat split. now apply emitted_nothing.
Qed.

(** The pause after the last symbol of a character. *)
Lemma step_character_pause (g : Globals) (symbol : ascii) :
  current_symbol msgs g = Some symbol -> is_nul symbol = true ->
  0 <= phase g < 65536 ->
  exists g', signal_message msgs g = Some g' /\
    message_ended g' = 0 /\
    button_pressed g' = button_pressed g /\
    next_message_index g' = next_message_index g /\
    message_index g' = message_index g /\
    if phase g <=? character_pause_len
    then emitted g g' = (if phase g <=? 1 then [pattern_off] else []) /\
         character_index g' = character_index g /\
         symbol_index g' = symbol_index g /\ phase g' = phase g + 1
    else emitted g g' = [] /\
         character_index g' = CInt.to_ushort (character_index g + 1) /\
         symbol_index g' = 0 /\ phase g' = 0.
Proof.
  intros Hs Hn Hp.
  destruct (current_symbol_inv g symbol Hs) as (m & c & Hm & Hc & Hcn & Hsym).
  destruct (c_index_next _ _ _ Hc Hcn) as [c' Hnext].
  unfold signal_message. rewrite Hm, Hc, Hcn.
  cbn [negb symbol_index set_message_ended phase].
  rewrite Hsym, Hn. cbn [negb].
  destruct (Z.leb_spec (phase g) character_pause_len) as [Hle|Hgt].
  - unfold character_pause_len in Hle. unfold character_pause, emitted.
    destruct (phase g <=? 1); cbn -[CInt.to_ushort];
      rewrite CIntFacts.to_ushort_small by lia;
      (eexists; split; [reflexivity|]); cbn;
      rewrite ?skipn_length_app, ?skipn_all; repeat split.
  - cbn [character_index set_character_index set_message_ended]. rewrite Hnext.
    eexists. split; [reflexivity|]. cbn. repeat split. now apply emitted_nothing.
Qed.

(** The pause after the last character of a message. *)
Lemma step_word_pause (g : Globals) (character : ascii) :
  current_character msgs g = Some character -> is_nul character = true ->
  0 <= phase g < 65536 ->
  exists g', signal_message msgs g = Some g' /\
    button_pressed g' = button_pressed g /\
    next_message_index g' = next_message_index g /\
    message_index g' = message_index g /\
    if phase g <=? word_pause_len
    then emitted g g' = (if phase g <=? 3 then [pattern_off] else []) /\
         message_ended g' = message_ended g /\
         character_index g' = character_index g /\
         symbol_index g' = symbol_index g /\ phase g' = phase g + 1
    else emitted g g' = [] /\ message_ended g' = 1 /\
         character_index g' = 0 /\ symbol_index g' = 0 /\ phase g' = 0.
Proof.
  intros Hc Hn Hp. unfold current_character in Hc.
  destruct (nth_error msgs _) as [m|] eqn:Hm; [|discriminate].
  unfold signal_message. rewrite Hm, Hc, Hn. cbn [negb].
  destruct (Z.leb_spec (phase g) word_pause_len) as [Hle|Hgt].
  - unfold word_pause_len in Hle. unfold word_pause, emitted.
    destruct (phase g <=? 3); cbn -[CInt.to_ushort];
      rewrite CIntFacts.to_ushort_small by lia;
      (eexists; split; [reflexivity|]); cbn;
      rewrite ?skipn_length_app, ?skipn_all; repeat split.
  - eexists. split; [reflexivity|]. cbn. repeat split. now apply emitted_nothing.
Qed.

End Step.

(** ** Dots and dashes *)

(** C1 (as the code has it). While a dot is played, the call at phase 0
    writes pattern A and the call at phase 1 writes "off"; while a dash is
    played, the calls at phases 0 to 2 write pattern B and the call at phase
    3 writes "off"; each of these calls increments the phase.  Once the
    phase has reached the length of the symbol, the call writes nothing,
    increments [symbol_index] and resets the phase to 0. *)
Theorem signal_dot_dash_phases :
  forall (msgs : list string) (g : Globals),
    0 <= phase g < 65536 ->
    (current_symbol msgs g = Some "."%char ->
     exists g', signal_message msgs g = Some g' /\
       if phase g <? dot_len
       then emitted g g' = [if phase g =? 0 then pattern_A else pattern_off] /\
            symbol_index g' = symbol_index g /\ phase g' = phase g + 1
       else emitted g g' = [] /\
            symbol_index g' = CInt.to_ushort (symbol_index g + 1) /\
            phase g' = 0) /\
    (current_symbol msgs g = Some "-"%char ->
     exists g', signal_message msgs g = Some g' /\
       if phase g <? dash_len
       then emitted g g' = [if phase g <=? 2 then pattern_B else pattern_off] /\
            symbol_index g' = symbol_index g /\ phase g' = phase g + 1
       else emitted g g' = [] /\
            symbol_index g' = CInt.to_ushort (symbol_index g + 1) /\
            phase g' = 0).
Proof.
  intros msgs g Hp. split; intros Hs.
  - destruct (step_symbol msgs g _ Hs eq_refl Hp)
      as (g' & Hstep & _ & _ & _ & _ & _ & H).
    exists g'. split; [exact Hstep|].
    change (symbol_len ".") with dot_len in H.
    change (symbol_pattern "." (phase g))
      with (if phase g <=? 0 then pattern_A else pattern_off) in H.
    destruct (phase g <? dot_len); [|exact H].
    destruct (Z.leb_spec (phase g) 0), (Z.eqb_spec (phase g) 0);
      try lia; exact H.
  - destruct (step_symbol msgs g _ Hs eq_refl Hp)
      as (g' & Hstep & _ & _ & _ & _ & _ & H).
    exists g'. split; [exact Hstep|]. exact H.
Qed.

Lemma signal_dot_dash_phases_witness :
  0 <= phase (set_phase 1 initial_globals) < 65536 /\
  current_symbol messages (set_phase 1 initial_globals) = Some "."%char /\
  exists g', signal_message messages (set_phase 1 initial_globals) = Some g' /\
    emitted (set_phase 1 initial_globals) g' = [pattern_off] /\
    symbol_index g' = 0 /\ phase g' = 2.
Proof.
  assert (Hp : 0 <= phase (set_phase 1 initial_globals) < 65536)
    by (cbn; lia).
  split; [exact Hp|]. split; [reflexivity|].
  destruct (signal_dot_dash_phases messages (set_phase 1 initial_globals) Hp)
    as [Hdot _].
  destruct (Hdot eq_refl) as (g' & Hstep & Hout).
  exists g'. split; [exact Hstep|]. exact Hout.
Defined.

(** C1 as stated fails: after the first call on "ss" the cursor is in a
    dot at phase 1, below [dot_len], and the call made there writes "off",
    not pattern A; likewise a dash at phase 3 writes "off", not pattern B. *)
Lemma dot_phase_1_writes_off :
  exists g1 g2,
    run 1 messages initial_globals = Some g1 /\
    current_symbol messages g1 = Some "."%char /\
    phase g1 = 1 /\ phase g1 < dot_len /\
    signal_message messages g1 = Some g2 /\
    emitted g1 g2 = [pattern_off] /\
    pattern_off <> pattern_A.
Proof.
  do 2 eexists. split; [reflexivity|].
  repeat split; discriminate.
Qed.

(** ** Playing "ss" *)

(** C2 (as the code has it). From the initial values, 32 calls of
    [signal_message] play "ss" once: they write A, off, A, off, A, off for
    the three dots of each 's', off, off for each character pause and off
    four times for the message pause, 20 patterns in all; [message_ended] is
    0 after each of the first 31 calls and 1 after the 32nd, which leaves
    the cursor at the start of the message. *)
Theorem ss_playback :
  exists g',
    run 32 messages initial_globals = Some g' /\
    led_calls g' =
      s_patterns ++ s_patterns ++
      [pattern_off; pattern_off; pattern_off; pattern_off] /\
    message_ended_history 32 messages initial_globals = repeat 0 31 ++ [1] /\
    message_ended g' = 1 /\
    character_index g' = 0 /\ symbol_index g' = 0 /\ phase g' = 0.
Proof.
  eexists. split; [vm_compute; reflexivity|].
  repeat split; vm_compute; reflexivity.
Qed.

(** C2 as stated fails: the patterns written by the playback of "ss" are
    not those of scenario 1; the second pattern written is already "off". *)
Lemma ss_playback_differs_from_scenario :
  exists g2 g',
    run 2 messages initial_globals = Some g2 /\
    led_calls g2 = [pattern_A; pattern_off] /\
    run 32 messages initial_globals = Some g' /\
    message_ended g' = 1 /\
    led_calls g' <> spec_ss_patterns.
Proof.
  do 2 eexists. split; [vm_compute; reflexivity|].
  split; [vm_compute; reflexivity|].
  split; [vm_compute; reflexivity|].
  split; [vm_compute; reflexivity|].
  vm_compute. intros H. discriminate H.
Qed.

(** ** The cursor invariant *)

Lemma get_morse_strlen (character : ascii) :
  1 <= strlen (get_morse character) <= 4.
Proof.
  destruct character as [[] [] [] [] [] [] [] []]; vm_compute;
    split; discriminate.
Qed.

Lemma get_morse_nul_free (character : ascii) :
  nul_free (get_morse character) = true.
Proof. destruct character as [[] [] [] [] [] [] [] []]; reflexivity. Qed.

Lemma symbol_len_range (symbol : ascii) : 2 <= symbol_len symbol <= 4.
Proof.
  unfold symbol_len, dot_len, dash_len, word_pause_len.
  destruct (Ascii.eqb symbol "."), (Ascii.eqb symbol "-"); lia.
Qed.

Section CursorInvariant.

Variable msgs : list string.
Variable slack : Z.
Hypothesis slack_nonneg : 0 <= slack.

Lemma phase_bound_eq (g : Globals) (message : string) (character : ascii) :
  nth_error msgs (Z.to_nat (message_index g)) = Some message ->
  c_index message (character_index g) = Some character ->
  phase_bound slack msgs g =
    if is_nul character then Some (word_pause_len + slack)
    else
      match c_index (get_morse character) (symbol_index g) with
      | Some symbol =>
          if is_nul symbol then Some (character_pause_len + slack)
          else Some (symbol_len symbol)
      | None => None
      end.
Proof.
  intros Hm Hc. unfold phase_bound, current_character. rewrite Hm, Hc.
  destruct (is_nul character); [reflexivity|].
  destruct (c_index (get_morse character) (symbol_index g)) as [s|];
    [|reflexivity].
  unfold symbol_len.
  destruct (is_nul s), (Ascii.eqb s "."), (Ascii.eqb s "-"); reflexivity.
Qed.

Lemma phase_bound_defined (g : Globals) (message : string) (character : ascii) :
  nth_error msgs (Z.to_nat (message_index g)) = Some message ->
  c_index message (character_index g) = Some character ->
  0 <= symbol_index g <= strlen (get_morse character) ->
  exists b, phase_bound slack msgs g = Some b /\ 0 <= b.
Proof.
  intros Hm Hc Hs. rewrite (phase_bound_eq g _ _ Hm Hc).
  destruct (is_nul character).
  - eexists. split; [reflexivity|]. unfold word_pause_len. lia.
  - destruct (c_index_defined _ _ Hs) as [s ->].
    destruct (is_nul s); eexists; (split; [reflexivity|]).
    + unfold character_pause_len. lia.
    + pose proof (symbol_len_range s). lia.
Qed.

Lemma cursor_inv_intro (g : Globals) (message : string) (character : ascii)
      (b : Z) :
  nth_error msgs (Z.to_nat (message_index g)) = Some message ->
  0 <= message_index g ->
  c_index message (character_index g) = Some character ->
  0 <= symbol_index g <= strlen (get_morse character) ->
  phase_bound slack msgs g = Some b ->
  0 <= phase g <= b ->
  cursor_inv_with slack msgs g = true.
Proof.
  intros Hm Hmi Hc Hs Hb Hp. pose proof (c_index_bounds _ _ _ Hc) as Hci.
  unfold cursor_inv_with. rewrite Hm, Hc, Hb.
  repeat (apply andb_true_intro; split); apply Z.leb_le; lia.
Qed.

Lemma cursor_inv_elim (g : Globals) :
  cursor_inv_with slack msgs g = true ->
  exists message character b,
    nth_error msgs (Z.to_nat (message_index g)) = Some message /\
    0 <= message_index g /\
    0 <= character_index g <= strlen message /\
    c_index message (character_index g) = Some character /\
    0 <= symbol_index g <= strlen (get_morse character) /\
    phase_bound slack msgs g = Some b /\
    0 <= phase g <= b.
Proof.
  unfold cursor_inv_with.
  destruct (nth_error msgs _) as [m|] eqn:Hm; [|discriminate].
  destruct (c_index m _) as [c|] eqn:Hc;
    [|rewrite andb_false_r; discriminate].
  destruct (phase_bound slack msgs g) as [b|] eqn:Hb;
    [|rewrite !andb_false_r; discriminate].
  intros H.
  repeat match goal with
         | H : _ && _ = true |- _ => apply andb_true_iff in H; destruct H
         end.
  exists m, c, b.
  repeat match goal with
         | H : (_ <=? _) = true |- _ => apply Z.leb_le in H
         end.
  repeat split; assumption.
Qed.

(** At phase 0 the invariant only asks for valid indices. *)
Lemma cursor_inv_fresh (g : Globals) (message : string) (character : ascii) :
  nth_error msgs (Z.to_nat (message_index g)) = Some message ->
  0 <= message_index g ->
  c_index message (character_index g) = Some character ->
  0 <= symbol_index g <= strlen (get_morse character) ->
  phase g = 0 ->
  cursor_inv_with slack msgs g = true.
Proof.
  intros Hm Hmi Hc Hs Hp.
  destruct (phase_bound_defined g _ _ Hm Hc Hs) as (b & Hb & Hb0).
  apply (cursor_inv_intro g message character b); try assumption. lia.
Qed.

End CursorInvariant.

Lemma current_character_eq (msgs : list string) (g : Globals)
      (message : string) :
  nth_error msgs (Z.to_nat (message_index g)) = Some message ->
  current_character msgs g = c_index message (character_index g).
Proof. intros H. unfold current_character. now rewrite H. Qed.

Lemma current_symbol_eq (msgs : list string) (g : Globals)
      (message : string) (character : ascii) :
  nth_error msgs (Z.to_nat (message_index g)) = Some message ->
  c_index message (character_index g) = Some character ->
  is_nul character = false ->
  current_symbol msgs g = c_index (get_morse character) (symbol_index g).
Proof.
  intros Hm Hc Hn. unfold current_symbol, current_character.
  now rewrite Hm, Hc, Hn.
Qed.

(** Under the invariant a call of [signal_message] reads inside its arrays
    and re-establishes the invariant. *)
Lemma cursor_inv_step (msgs : list string) (g : Globals) :
  cursor_inv msgs g = true ->
  exists g', signal_message msgs g = Some g' /\ cursor_inv msgs g' = true.
Proof.
  intros H. destruct (cursor_inv_elim msgs 1 g H)
    as (m & c & b & Hm & Hmi & Hci & Hc & Hsi & Hb & Hp).
  rewrite (phase_bound_eq msgs 1 g m c Hm Hc) in Hb.
  destruct (is_nul c) eqn:Hnul.
  - (* pause between messages *)
    injection Hb as <-. unfold word_pause_len in Hp.
    destruct (step_word_pause msgs g c) as (g' & Hstep & _ & _ & Hmi' & Hcase);
      [now rewrite (current_character_eq msgs g m Hm) | assumption | lia |].
    exists g'. split; [exact Hstep|]. rewrite <- Hmi' in Hm, Hmi.
    destruct (Z.leb_spec (phase g) word_pause_len) as [Hle|Hgt].
    + destruct Hcase as (_ & _ & Hci' & Hsi' & Hp').
      apply (cursor_inv_intro msgs 1 g' m c (word_pause_len + 1));
        rewrite ?Hci', ?Hsi', ?Hp'; try assumption.
      * rewrite (phase_bound_eq msgs 1 g' m c Hm) by now rewrite Hci'.
        now rewrite Hnul.
      * lia.
    + destruct Hcase as (_ & _ & Hci' & Hsi' & Hp').
      destruct (c_index_defined m 0) as [c0 Hc0]; [lia|].
      apply (cursor_inv_fresh msgs 1 ltac:(lia) g' m c0);
        rewrite ?Hci', ?Hsi'; try assumption.
      pose proof (get_morse_strlen c0). lia.
  - destruct (c_index_defined _ _ Hsi) as [s Hs]. rewrite Hs in Hb.
    pose proof (current_symbol_eq msgs g m c Hm Hc Hnul) as Hcur.
    rewrite Hs in Hcur.
    destruct (is_nul s) eqn:Hsn.
    + (* pause between characters *)
      injection Hb as <-. unfold character_pause_len in Hp.
      destruct (step_character_pause msgs g s Hcur Hsn)
        as (g' & Hstep & _ & _ & _ & Hmi' & Hcase); [lia|].
      exists g'. split; [exact Hstep|]. rewrite <- Hmi' in Hm, Hmi.
      destruct (Z.leb_spec (phase g) character_pause_len) as [Hle|Hgt].
      * destruct Hcase as (_ & Hci' & Hsi' & Hp').
        apply (cursor_inv_intro msgs 1 g' m c (character_pause_len + 1));
          rewrite ?Hci', ?Hsi', ?Hp'; try assumption.
        -- rewrite (phase_bound_eq msgs 1 g' m c Hm) by now rewrite Hci'.
           now rewrite Hnul, Hsi', Hs, Hsn.
        -- lia.
      * destruct Hcase as (_ & Hci' & Hsi' & Hp').
        destruct (c_index_next _ _ _ Hc Hnul) as [c1 Hc1].
        apply (cursor_inv_fresh msgs 1 ltac:(lia) g' m c1);
          rewrite ?Hci', ?Hsi'; try assumption.
        pose proof (get_morse_strlen c1). lia.
    + (* a symbol *)
      injection Hb as <-. pose proof (symbol_len_range s) as Hlen.
      destruct (step_symbol msgs g s Hcur Hsn)
        as (g' & Hstep & _ & _ & _ & Hmi' & Hci' & Hcase); [lia|].
      exists g'. split; [exact Hstep|]. rewrite <- Hmi' in Hm, Hmi.
      destruct (Z.ltb_spec (phase g) (symbol_len s)) as [Hlt|Hge].
      * destruct Hcase as (_ & Hsi' & Hp').
        apply (cursor_inv_intro msgs 1 g' m c (symbol_len s));
          rewrite ?Hci', ?Hsi', ?Hp'; try assumption.
        -- rewrite (phase_bound_eq msgs 1 g' m c Hm) by now rewrite Hci'.
           now rewrite Hnul, Hsi', Hs, Hsn.
        -- lia.
      * destruct Hcase as (_ & Hsi' & Hp').
        pose proof (c_index_non_nul _ _ _ Hs Hsn) as Hlt.
        pose proof (CIntFacts.to_ushort_succ_le (symbol_index g)) as Hw.
        apply (cursor_inv_fresh msgs 1 ltac:(lia) g' m c);
          rewrite ?Hci', ?Hsi'; try assumption. lia.
Qed.

(** C6 (as the code has it). Every call of [signal_message] made with
    the invariant succeeds and preserves it: [character_index] is at most
    the length of the current message, [symbol_index] is at most the length
    of the Morse string of the current character, and [phase] is at most
    the length of the symbol being played or, in a pause, the length of the
    pause plus one. *)
Theorem cursor_inv_preserved :
  forall (msgs : list string) (g : Globals),
    cursor_inv msgs g = true ->
    exists g', signal_message msgs g = Some g' /\
      cursor_inv msgs g' = true /\
      exists message character b,
        nth_error msgs (Z.to_nat (message_index g')) = Some message /\
        0 <= character_index g' <= strlen message /\
        c_index message (character_index g') = Some character /\
        0 <= symbol_index g' <= strlen (get_morse character) /\
        phase_bound 1 msgs g' = Some b /\
        0 <= phase g' <= b.
Proof.
  intros msgs g H. destruct (cursor_inv_step msgs g H) as (g' & Hstep & Hinv).
  exists g'. split; [exact Hstep|]. split; [exact Hinv|].
  destruct (cursor_inv_elim msgs 1 g' Hinv)
    as (m & c & b & Hm & _ & Hci & Hc & Hsi & Hb & Hp).
  exists m, c, b. repeat split; tauto.
Qed.

Lemma cursor_inv_preserved_witness :
  cursor_inv messages initial_globals = true /\
  exists g', signal_message messages initial_globals = Some g' /\
    cursor_inv messages g' = true.
Proof.
  assert (H : cursor_inv messages initial_globals = true) by reflexivity.
  split; [exact H|].
  destruct (cursor_inv_preserved messages initial_globals H)
    as (g' & Hstep & Hinv & _).
  exists g'. split; assumption.
Defined.

(** C6 as stated fails: after eleven calls on "ss" the cursor is in the
    pause after the first 's' at phase 2, the length of that pause; the next
    call raises the phase to 3, beyond the length of the active pause. *)
Lemma character_pause_phase_exceeds_length :
  exists g g',
    run 11 messages initial_globals = Some g /\
    spec_cursor_inv messages g = true /\
    signal_message messages g = Some g' /\
    phase_bound 0 messages g' = Some character_pause_len /\
    phase g' = 3 /\
    spec_cursor_inv messages g' = false.
Proof.
  do 2 eexists. split; [vm_compute; reflexivity|].
  split; [vm_compute; reflexivity|].
  split; [vm_compute; reflexivity|].
  split; [vm_compute; reflexivity|].
  split; vm_compute; reflexivity.
Qed.

(** ** Strings and concatenation *)

Section Append.

Lemma strlen_append (s t : string) : strlen (s ++ t) = strlen s + strlen t.
Proof.
  unfold strlen. induction s as [|a s IH]; [reflexivity|].
  cbn [append String.length]. rewrite !Nat2Z.inj_succ. lia.
Qed.

Lemma append_assoc (s t u : string) : ((s ++ t) ++ u = s ++ (t ++ u))%string.
Proof. induction s as [|a s IH]; simpl; [reflexivity | now rewrite IH]. Qed.

Lemma append_empty_r (s : string) : (s ++ "" = s)%string.
Proof. induction s as [|a s IH]; simpl; [reflexivity | now rewrite IH]. Qed.

Lemma get_append_head (s t : string) (a : ascii) :
  String.get (String.length s) (s ++ String a t) = Some a.
Proof. induction s as [|b s IH]; simpl; [reflexivity | exact IH]. Qed.

Lemma c_index_append (s t : string) (a : ascii) :
  c_index (s ++ String a t) (strlen s) = Some a.
Proof.
  unfold c_index, strlen.
  destruct (Z.of_nat (String.length s) <? 0) eqn:Hneg;
    [apply Z.ltb_lt in Hneg; lia|].
  rewrite Nat2Z.id, append_assoc. apply get_append_head.
Qed.

Lemma nul_free_append (s t : string) :
  nul_free (s ++ t) = nul_free s && nul_free t.
Proof.
  induction s as [|a s IH]; simpl; [reflexivity|].
  now rewrite IH, andb_assoc.
Qed.

End Append.

(** ** Runs of calls *)

Section Runs.

Variable msgs : list string.

Lemma run_add (n k : nat) (g : Globals) :
  run (n + k) msgs g =
  match run n msgs g with Some g' => run k msgs g' | None => None end.
Proof.
  revert g. induction n as [|n IH]; intros g; simpl; [reflexivity|].
  destruct (signal_message msgs g); [apply IH | reflexivity].
Qed.

Lemma quiet_add (n k : nat) (g g' : Globals) :
  run n msgs g = Some g' ->
  quiet (n + k) msgs g = quiet n msgs g && quiet k msgs g'.
Proof.
  revert g. induction n as [|n IH]; intros g; simpl.
  - now intros [= ->].
  - destruct (signal_message msgs g) as [g1|]; [|discriminate].
    intros H. rewrite (IH g1 H). now rewrite andb_assoc.
Qed.

Lemma quietly_refl (g : Globals) : quietly 0 msgs g g.
Proof. split; reflexivity. Qed.

Lemma quietly_trans (n k : nat) (g g' g'' : Globals) :
  quietly n msgs g g' -> quietly k msgs g' g'' -> quietly (n + k) msgs g g''.
Proof.
  intros [Hr Hq] [Hr' Hq']. split.
  - now rewrite run_add, Hr.
  - now rewrite (quiet_add n k g g' Hr), Hq, Hq'.
Qed.

Lemma quietly_one (g g' : Globals) :
  signal_message msgs g = Some g' -> sets_message_ended msgs g = false ->
  quietly 1 msgs g g'.
Proof.
  intros Hs Hq. split; simpl; rewrite Hs; [reflexivity|].
  now rewrite Hq.
Qed.

Lemma current_character_ext (g g' : Globals) :
  message_index g' = message_index g ->
  character_index g' = character_index g ->
  current_character msgs g' = current_character msgs g.
Proof. intros Hm Hc. unfold current_character. now rewrite Hm, Hc. Qed.

Lemma current_symbol_ext (g g' : Globals) :
  message_index g' = message_index g ->
  character_index g' = character_index g ->
  symbol_index g' = symbol_index g ->
  current_symbol msgs g' = current_symbol msgs g.
Proof.
  intros Hm Hc Hs. unfold current_symbol.
  now rewrite (current_character_ext g g' Hm Hc), Hs.
Qed.

Lemma in_character_not_setting (g : Globals) (symbol : ascii) :
  current_symbol msgs g = Some symbol -> sets_message_ended msgs g = false.
Proof.
  intros H. destruct (current_symbol_inv msgs g symbol H)
    as (m & c & Hm & Hc & Hn & _).
  unfold sets_message_ended. rewrite (current_character_eq msgs g m Hm), Hc.
  now rewrite Hn.
Qed.

(** Playing one symbol from any phase up to its length. *)
Lemma symbol_loop (k : nat) (g : Globals) (symbol : ascii) :
  current_symbol msgs g = Some symbol -> is_nul symbol = false ->
  0 <= phase g -> phase g + Z.of_nat k = symbol_len symbol ->
  exists g', quietly (k + 1) msgs g g' /\
    message_ended g' = 0 /\
    message_index g' = message_index g /\
    character_index g' = character_index g /\
    symbol_index g' = CInt.to_ushort (symbol_index g + 1) /\
    phase g' = 0.
Proof.
  revert g. induction k as [|k IH]; intros g Hs Hn Hp Hk;
    pose proof (symbol_len_range symbol) as Hlen;
    destruct (step_symbol msgs g symbol Hs Hn)
      as (g1 & Hstep & He & _ & _ & Hmi & Hci & Hcase); try lia;
    pose proof (quietly_one g g1 Hstep (in_character_not_setting g _ Hs)) as Hq.
  - destruct (Z.ltb_spec (phase g) (symbol_len symbol)); [lia|].
    exists g1. split; [exact Hq|]. repeat split; tauto.
  - destruct (Z.ltb_spec (phase g) (symbol_len symbol)); [|lia].
    destruct Hcase as (_ & Hsi & Hp1).
    destruct (IH g1) as (g' & Hq' & He' & Hmi' & Hci' & Hsi' & Hp');
      [ now rewrite (current_symbol_ext g g1) | assumption | lia | lia |].
    exists g'. split; [exact (quietly_trans 1 (k + 1) g g1 g' Hq Hq')|].
    repeat split; congruence.
Qed.

(** The pause after a character, from any phase up to its end. *)
Lemma character_pause_loop (k : nat) (g : Globals) (symbol : ascii) :
  current_symbol msgs g = Some symbol -> is_nul symbol = true ->
  0 <= phase g -> phase g + Z.of_nat k = character_pause_len + 1 ->
  exists g', quietly (k + 1) msgs g g' /\
    message_ended g' = 0 /\
    message_index g' = message_index g /\
    character_index g' = CInt.to_ushort (character_index g + 1) /\
    symbol_index g' = 0 /\
    phase g' = 0.
Proof.
  unfold character_pause_len.
  revert g. induction k as [|k IH]; intros g Hs Hn Hp Hk;
    destruct (step_character_pause msgs g symbol Hs Hn)
      as (g1 & Hstep & He & _ & _ & Hmi & Hcase); try lia;
    pose proof (quietly_one g g1 Hstep (in_character_not_setting g _ Hs)) as Hq.
  - destruct (Z.leb_spec (phase g) character_pause_len);
      [unfold character_pause_len in *; lia|].
    exists g1. split; [exact Hq|]. repeat split; tauto.
  - destruct (Z.leb_spec (phase g) character_pause_len);
      [|unfold character_pause_len in *; lia].
    destruct Hcase as (_ & Hci & Hsi & Hp1).
    destruct (IH g1) as (g' & Hq' & He' & Hmi' & Hci' & Hsi' & Hp');
      [ now rewrite (current_symbol_ext g g1) | assumption | lia | lia |].
    exists g'. split; [exact (quietly_trans 1 (k + 1) g g1 g' Hq Hq')|].
    repeat split; congruence.
Qed.

(** The pause after a message, up to the call that sets [message_ended]. *)
Lemma word_pause_loop (k : nat) (g : Globals) (character : ascii) :
  current_character msgs g = Some character -> is_nul character = true ->
  0 <= phase g -> phase g + Z.of_nat k = word_pause_len + 1 ->
  exists g1 g2, quietly k msgs g g1 /\
    message_ended g1 = message_ended g /\
    sets_message_ended msgs g1 = true /\
    signal_message msgs g1 = Some g2 /\
    message_ended g2 = 1 /\
    message_index g2 = message_index g /\
    at_start g2.
Proof.
  unfold word_pause_len.
  revert g. induction k as [|k IH]; intros g Hc Hn Hp Hk;
    destruct (step_word_pause msgs g character Hc Hn)
      as (g1 & Hstep & _ & _ & Hmi & Hcase); try lia.
  - destruct (Z.leb_spec (phase g) word_pause_len);
      [unfold word_pause_len in *; lia|].
    exists g, g1. split; [apply quietly_refl|].
    assert (Hset : sets_message_ended msgs g = true).
    { unfold sets_message_ended. rewrite Hc, Hn.
      destruct (Z.leb_spec (phase g) word_pause_len);
        [unfold word_pause_len in *; lia | reflexivity]. }
    unfold at_start. repeat split; tauto.
  - destruct (Z.leb_spec (phase g) word_pause_len) as [Hle|];
      [|unfold word_pause_len in *; lia].
    destruct Hcase as (_ & He & Hci & Hsi & Hp1).
    assert (Hq : quietly 1 msgs g g1).
    { apply quietly_one; [exact Hstep|].
      unfold sets_message_ended. rewrite Hc, Hn.
      destruct (Z.leb_spec (phase g) word_pause_len); [reflexivity | lia]. }
    destruct (IH g1) as (g' & g'' & Hq' & He' & Hset & Hstep' & He'' & Hmi' & Hst);
      [ now rewrite (current_character_ext g g1) | assumption | lia | lia |].
    exists g', g''. split; [exact (quietly_trans 1 k g g1 g' Hq Hq')|].
    repeat split; try congruence; apply Hst.
Qed.

End Runs.

(** ** Traversing a message *)

Section Traversal.

Variable msgs : list string.

Lemma symbol_steps_eq (symbol : ascii) :
  symbol_steps symbol = (Z.to_nat (symbol_len symbol) + 1)%nat.
Proof.
  unfold symbol_steps, symbol_len.
  destruct (Ascii.eqb symbol "."), (Ascii.eqb symbol "-"); reflexivity.
Qed.

(** The symbols of a character that are still to be played. *)
Lemma symbols_run (rest : string) :
  forall (played : string) (g : Globals) (message : string) (character : ascii),
    nth_error msgs (Z.to_nat (message_index g)) = Some message ->
    c_index message (character_index g) = Some character ->
    is_nul character = false ->
    get_morse character = (played ++ rest)%string ->
    symbol_index g = strlen played -> phase g = 0 ->
    exists g', quietly (symbols_steps rest) msgs g g' /\
      message_index g' = message_index g /\
      character_index g' = character_index g /\
      symbol_index g' = strlen (get_morse character) /\
      phase g' = 0.
Proof.
  induction rest as [|a rest IH]; intros played g m c Hm Hc Hn Hcode Hsi Hp.
  - exists g. split; [apply quietly_refl|].
    rewrite Hcode, append_empty_r. repeat split; assumption.
  - pose proof (get_morse_nul_free c) as Hfree.
    rewrite Hcode, nul_free_append in Hfree.
    apply andb_true_iff in Hfree. destruct Hfree as [_ Hfree]. simpl in Hfree.
    apply andb_true_iff in Hfree. destruct Hfree as [Ha _].
    apply negb_true_iff in Ha.
    assert (Hcur : current_symbol msgs g = Some a).
    { rewrite (current_symbol_eq msgs g m c Hm Hc Hn), Hcode, Hsi.
      apply c_index_append. }
    pose proof (symbol_len_range a) as Hlen.
    destruct (symbol_loop msgs (Z.to_nat (symbol_len a)) g a Hcur Ha)
      as (g1 & Hq & _ & Hmi1 & Hci1 & Hsi1 & Hp1); [lia | lia |].
    pose proof (get_morse_strlen c) as Hmax.
    rewrite Hcode, strlen_append in Hmax.
    assert (Hsi1' : symbol_index g1 = strlen (played ++ String a "")).
    { rewrite Hsi1, Hsi, strlen_append.
      unfold strlen in *. simpl String.length in *.
      rewrite CIntFacts.to_ushort_small; lia. }
    destruct (IH (played ++ String a "")%string g1 m c)
      as (g' & Hq' & Hmi' & Hci' & Hsi' & Hp'); try assumption.
    + now rewrite Hmi1.
    + now rewrite Hci1.
    + now rewrite append_assoc.
    + exists g'. split.
      * simpl symbols_steps. rewrite symbol_steps_eq.
        exact (quietly_trans _ _ _ _ _ _ Hq Hq').
      * repeat split; congruence.
Qed.

(** One character: its symbols and the pause after them. *)
Lemma character_run (g : Globals) (message : string) (character : ascii) :
  nth_error msgs (Z.to_nat (message_index g)) = Some message ->
  c_index message (character_index g) = Some character ->
  is_nul character = false ->
  symbol_index g = 0 -> phase g = 0 ->
  exists g', quietly (character_steps character) msgs g g' /\
    message_ended g' = 0 /\
    message_index g' = message_index g /\
    character_index g' = CInt.to_ushort (character_index g + 1) /\
    symbol_index g' = 0 /\
    phase g' = 0.
Proof.
  intros Hm Hc Hn Hsi Hp.
  destruct (symbols_run (get_morse character) ""%string g message character)
    as (g1 & Hq & Hmi1 & Hci1 & Hsi1 & Hp1); try assumption; [reflexivity|].
  assert (Hcur : current_symbol msgs g1 = Some NUL).
  { rewrite (current_symbol_eq msgs g1 message character); try congruence.
    rewrite Hsi1. apply c_index_terminator. }
  destruct (character_pause_loop msgs 3 g1 NUL Hcur eq_refl)
    as (g' & Hq' & He' & Hmi' & Hci' & Hsi' & Hp'); [lia | rewrite Hp1; reflexivity |].
  exists g'. split.
  - exact (quietly_trans _ _ _ _ _ _ Hq Hq').
  - repeat split; congruence.
Qed.

(** The characters of a message that are still to be played. *)
Lemma characters_run (rest : string) :
  forall (played : string) (g : Globals) (message : string),
    nth_error msgs (Z.to_nat (message_index g)) = Some message ->
    message = (played ++ rest)%string ->
    nul_free rest = true -> strlen message < 65536 ->
    character_index g = strlen played ->
    symbol_index g = 0 -> phase g = 0 ->
    exists g', quietly (characters_steps rest) msgs g g' /\
      (rest <> ""%string -> message_ended g' = 0) /\
      (rest = ""%string -> message_ended g' = message_ended g) /\
      message_index g' = message_index g /\
      character_index g' = strlen message /\
      symbol_index g' = 0 /\
      phase g' = 0.
Proof.
  induction rest as [|a rest IH]; intros played g m Hm Hsplit Hfree Hlen Hci Hsi Hp.
  - exists g. split; [apply quietly_refl|].
    rewrite Hsplit, append_empty_r. repeat split; try assumption.
    intros H. now contradiction H.
  - simpl in Hfree. apply andb_true_iff in Hfree. destruct Hfree as [Ha Hfree].
    apply negb_true_iff in Ha.
    assert (Hc : c_index m (character_index g) = Some a).
    { rewrite Hsplit, Hci. apply c_index_append. }
    destruct (character_run g m a Hm Hc Ha Hsi Hp)
      as (g1 & Hq & He1 & Hmi1 & Hci1 & Hsi1 & Hp1).
    assert (Hci1' : character_index g1 = strlen (played ++ String a "")).
    { rewrite Hci1, Hci, strlen_append.
      rewrite Hsplit, strlen_append in Hlen.
      unfold strlen in *. simpl String.length in *.
      rewrite CIntFacts.to_ushort_small; lia. }
    destruct (IH (played ++ String a "")%string g1 m)
      as (g' & Hq' & He' & He'' & Hmi' & Hci' & Hsi' & Hp'); try assumption.
    + now rewrite Hmi1.
    + now rewrite append_assoc.
    + exists g'. split; [exact (quietly_trans _ _ _ _ _ _ Hq Hq')|].
      repeat split; try congruence.
      intros _. destruct rest as [|b rest].
      * rewrite He'' by reflexivity. exact He1.
      * apply He'. discriminate.
Qed.

(** A whole message from its start: every call but the last leaves
    [message_ended] unset, the last one sets it and rewinds the cursor. *)
Lemma traversal (g : Globals) (message : string) :
  nth_error msgs (Z.to_nat (message_index g)) = Some message ->
  nul_free message = true -> strlen message < 65536 ->
  at_start g ->
  exists g1 g2,
    quietly (characters_steps message + 5) msgs g g1 /\
    (message <> ""%string -> message_ended g1 = 0) /\
    sets_message_ended msgs g1 = true /\
    signal_message msgs g1 = Some g2 /\
    message_ended g2 = 1 /\
    message_index g2 = message_index g /\
    at_start g2.
Proof.
  intros Hm Hfree Hlen (Hci & Hsi & Hp).
  destruct (characters_run message ""%string g message)
    as (g0 & Hq & He0 & _ & Hmi0 & Hci0 & Hsi0 & Hp0); try assumption;
    [reflexivity|].
  assert (Hcur : current_character msgs g0 = Some NUL).
  { rewrite (current_character_eq msgs g0 message) by congruence.
    rewrite Hci0. apply c_index_terminator. }
  destruct (word_pause_loop msgs 5 g0 NUL Hcur eq_refl)
    as (g1 & g2 & Hq' & He1 & Hset & Hstep & He2 & Hmi2 & Hst);
    [lia | rewrite Hp0; reflexivity |].
  exists g1, g2. split; [exact (quietly_trans _ _ _ _ _ _ Hq Hq')|].
  repeat split; try congruence; try apply Hst.
  intros H. rewrite He1. now apply He0.
Qed.

End Traversal.

(** ** What any call does to [message_ended] and to the LEDs *)

Ltac signal_message_cases :=
  unfold signal_message, signal_dot, signal_dash, character_pause, word_pause;
  repeat match goal with
         | |- context [match ?x with _ => _ end] => destruct x eqn:?
         end.

(** The flag after a call: 1 if the call takes the branch that ends the
    message, unchanged in the rest of the pause after the message, and 0
    whenever the cursor is at a character. *)
Lemma message_ended_step (msgs : list string) (g : Globals) :
  match signal_message msgs g with
  | Some g' =>
      message_ended g' =
        if sets_message_ended msgs g then 1
        else match current_character msgs g with
             | Some character => if is_nul character then message_ended g else 0
             | None => 0
             end
  | None => True
  end.
Proof.
  unfold sets_message_ended, current_character.
  destruct (signal_message msgs g) as [g'|] eqn:Hstep; [|exact I].
  revert Hstep. unfold signal_message.
  destruct (nth_error msgs _) as [m|]; [|discriminate].
  destruct (c_index m _) as [c|]; [|discriminate].
  destruct (is_nul c); cbn [negb andb].
  - unfold word_pause.
    destruct (phase g <=? word_pause_len), (phase g <=? 3);
      intros [= <-]; reflexivity.
  - signal_message_cases; intros [= <-]; reflexivity.
Qed.

(** A call only appends to the record of [set_leds] calls. *)
Lemma led_calls_step (msgs : list string) (g g' : Globals) :
  signal_message msgs g = Some g' ->
  led_calls g' = led_calls g ++ emitted g g'.
Proof.
  intros Hstep.
  assert (H : exists out, led_calls g' = led_calls g ++ out).
  { revert Hstep. signal_message_cases; intros [= <-];
      first [ now (exists []; cbn; rewrite app_nil_r)
            | eexists; cbn; reflexivity ]. }
  destruct H as [out H]. unfold emitted. rewrite H.
  now rewrite skipn_length_app.
Qed.

(** ** The end of a message *)

Lemma traversal_steps_pred (message : string) :
  (traversal_steps message - 1 = characters_steps message + 5)%nat.
Proof. unfold traversal_steps. lia. Qed.

(** The call made at the start of a message that is not empty clears
    [message_ended]. *)
Lemma start_clears_message_ended (msgs : list string) (g : Globals)
      (message : string) :
  nth_error msgs (Z.to_nat (message_index g)) = Some message ->
  message <> ""%string -> nul_free message = true -> at_start g ->
  exists g', signal_message msgs g = Some g' /\ message_ended g' = 0.
Proof.
  intros Hm Hne Hfree (Hci & Hsi & Hp).
  destruct message as [|a rest]; [now contradiction Hne|].
  simpl in Hfree. apply andb_true_iff in Hfree. destruct Hfree as [Ha _].
  apply negb_true_iff in Ha.
  assert (Hc : c_index (String a rest) (character_index g) = Some a)
    by (rewrite Hci; reflexivity).
  destruct (c_index_defined (get_morse a) (symbol_index g)) as [s Hs].
  { pose proof (get_morse_strlen a). lia. }
  pose proof (current_symbol_eq msgs g _ a Hm Hc Ha) as Hcur.
  rewrite Hs in Hcur.
  destruct (is_nul s) eqn:Hsn.
  - destruct (step_character_pause msgs g s Hcur Hsn) as (g' & H & He & _);
      [lia | eauto].
  - destruct (step_symbol msgs g s Hcur Hsn) as (g' & H & He & _);
      [lia | eauto].
Qed.

(** C3 (as the code has it). In a traversal of a message from its start,
    the only call that sets [message_ended] is the last one, which follows
    the pause after the message and rewinds the cursor; the flag is 1 after
    that call.  No later call is needed to clear it: the next call of
    [signal_message] on a message that is not empty sets it back to 0, and
    in general a call sets the flag to 0 whenever the cursor is at a
    character and leaves it alone during the pause after the message. *)
Theorem message_ended_once_per_traversal :
  forall (msgs : list string) (g : Globals) (message : string),
    nth_error msgs (Z.to_nat (message_index g)) = Some message ->
    nul_free message = true -> strlen message < 65536 ->
    at_start g ->
    (exists g1 g2,
       run (traversal_steps message - 1) msgs g = Some g1 /\
       quiet (traversal_steps message - 1) msgs g = true /\
       sets_message_ended msgs g1 = true /\
       signal_message msgs g1 = Some g2 /\
       run (traversal_steps message) msgs g = Some g2 /\
       message_ended g2 = 1 /\
       message_index g2 = message_index g /\
       at_start g2 /\
       (message <> ""%string ->
        message_ended g1 = 0 /\
        exists g3, signal_message msgs g2 = Some g3 /\ message_ended g3 = 0)) /\
    (forall g0 g0' : Globals,
       signal_message msgs g0 = Some g0' ->
       message_ended g0' =
         if sets_message_ended msgs g0 then 1
         else match current_character msgs g0 with
              | Some character =>
                  if is_nul character then message_ended g0 else 0
              | None => 0
              end).
Proof.
  intros msgs g message Hm Hfree Hlen Hst. split.
  - destruct (traversal msgs g message Hm Hfree Hlen Hst)
      as (g1 & g2 & [Hrun Hq] & He1 & Hset & Hstep & He2 & Hmi2 & Hst2).
    exists g1, g2. rewrite traversal_steps_pred.
    repeat split; try assumption; try apply Hst2.
    + unfold traversal_steps.
      replace (characters_steps message + 6)%nat
        with ((characters_steps message + 5) + 1)%nat by lia.
      rewrite run_add, Hrun. simpl. now rewrite Hstep.
    + now apply He1.
    + apply (start_clears_message_ended msgs g2 message); try assumption.
      now rewrite Hmi2.
  - intros g0 g0' H0. pose proof (message_ended_step msgs g0) as H.
    now rewrite H0 in H.
Qed.

Lemma message_ended_once_per_traversal_witness :
  nth_error messages (Z.to_nat (message_index initial_globals)) = Some "ss"%string /\
  at_start initial_globals /\
  exists g1 g2,
    run 31 messages initial_globals = Some g1 /\
    quiet 31 messages initial_globals = true /\
    signal_message messages g1 = Some g2 /\
    message_ended g2 = 1.
Proof.
  assert (Hst : at_start initial_globals) by (repeat split).
  split; [reflexivity|]. split; [exact Hst|].
  destruct (message_ended_once_per_traversal messages initial_globals "ss"%string
              eq_refl eq_refl ltac:(vm_compute; reflexivity) Hst)
    as [(g1 & g2 & Hrun & Hq & _ & Hstep & _ & He & _) _].
  exists g1, g2. repeat split; assumption.
Defined.

(** C3 as stated fails: after the 32 calls that play "ss", with no button
    pressed and nothing cleared by the main loop, [message_ended] is 1; the
    next call of [signal_message] sets it to 0. *)
Lemma signal_message_clears_message_ended :
  exists g g',
    run 32 messages initial_globals = Some g /\
    message_ended g = 1 /\
    signal_message messages g = Some g' /\
    message_ended g' = 0.
Proof.
  do 2 eexists. split; [vm_compute; reflexivity|].
  split; [vm_compute; reflexivity|].
  split; vm_compute; reflexivity.
Qed.

(** ** An empty message *)

Lemma empty_message_run (msgs : list string) (n : nat) :
  forall g : Globals,
    nth_error msgs (Z.to_nat (message_index g)) = Some ""%string ->
    character_index g = 0 -> 0 <= phase g < 65536 ->
    exists gn out,
      run n msgs g = Some gn /\
      led_calls gn = led_calls g ++ out /\
      Forall (fun pattern => pattern = pattern_off) out.
Proof.
  induction n as [|n IH]; intros g Hm Hci Hp.
  - exists g, []. simpl. rewrite app_nil_r. repeat split. constructor.
  - assert (Hcur : current_character msgs g = Some NUL).
    { rewrite (current_character_eq msgs g _ Hm), Hci. reflexivity. }
    destruct (step_word_pause msgs g NUL Hcur eq_refl Hp)
      as (g1 & Hstep & _ & _ & Hmi & Hcase).
    pose proof (led_calls_step msgs g g1 Hstep) as Hled.
    assert (H1 : character_index g1 = 0 /\ 0 <= phase g1 < 65536 /\
                 Forall (fun pattern => pattern = pattern_off) (emitted g g1)).
    { destruct (Z.leb_spec (phase g) word_pause_len) as [Hle|Hgt].
      - destruct Hcase as (Hout & _ & Hci1 & _ & Hp1). rewrite Hout.
        unfold word_pause_len in Hle.
        repeat split; try lia.
        destruct (phase g <=? 3); repeat constructor.
      - destruct Hcase as (Hout & _ & Hci1 & _ & Hp1). rewrite Hout.
        repeat split; try lia. constructor. }
    destruct H1 as (Hci1 & Hp1 & Hoff).
    destruct (IH g1) as (gn & out & Hrun & Hled' & Hoff');
      [now rewrite Hmi | assumption | assumption |].
    exists gn, (emitted g g1 ++ out). simpl. rewrite Hstep.
    split; [exact Hrun|]. split.
    + now rewrite Hled', Hled, app_assoc.
    + apply Forall_app. split; assumption.
Qed.

(** C5 (as the code has it). On an empty message the cursor is in the
    pause after the message from the start.  The first call writes "off" and
    leaves [message_ended] as it is; none of the first five calls sets the
    flag, which is unchanged after the fifth; it is the sixth call, made
    with the phase beyond [word_pause_len], that sets [message_ended] to 1.
    However many calls are made, every pattern written is "off". *)
Theorem empty_message_steps :
  forall (msgs : list string) (g : Globals),
    nth_error msgs (Z.to_nat (message_index g)) = Some ""%string ->
    at_start g ->
    (exists g1, signal_message msgs g = Some g1 /\
       message_ended g1 = message_ended g /\
       emitted g g1 = [pattern_off]) /\
    (exists g5 g6,
       run 5 msgs g = Some g5 /\
       quiet 5 msgs g = true /\
       message_ended g5 = message_ended g /\
       signal_message msgs g5 = Some g6 /\
       message_ended g6 = 1 /\
       at_start g6) /\
    (forall n : nat,
       exists gn out,
         run n msgs g = Some gn /\
         led_calls gn = led_calls g ++ out /\
         Forall (fun pattern => pattern = pattern_off) out).
Proof.
  intros msgs g Hm (Hci & Hsi & Hp).
  assert (Hcur : current_character msgs g = Some NUL).
  { rewrite (current_character_eq msgs g _ Hm), Hci. reflexivity. }
  split; [|split].
  - destruct (step_word_pause msgs g NUL Hcur eq_refl)
      as (g1 & Hstep & _ & _ & _ & Hcase); [lia|].
    rewrite Hp in Hcase. cbn in Hcase.
    exists g1. repeat split; tauto.
  - destruct (word_pause_loop msgs 5 g NUL Hcur eq_refl)
      as (g5 & g6 & [Hrun Hq] & He & _ & Hstep & He6 & _ & Hst);
      [lia | rewrite Hp; reflexivity |].
    exists g5, g6. repeat split; try assumption; apply Hst.
  - intros n. apply empty_message_run; [assumption | assumption | lia].
Qed.

Lemma empty_message_steps_witness :
  nth_error [""%string] (Z.to_nat (message_index initial_globals)) = Some ""%string /\
  at_start initial_globals /\
  exists g5 g6,
    run 5 [""%string] initial_globals = Some g5 /\
    message_ended g5 = 0 /\
    signal_message [""%string] g5 = Some g6 /\
    message_ended g6 = 1.
Proof.
  assert (Hst : at_start initial_globals) by (repeat split).
  split; [reflexivity|]. split; [exact Hst|].
  destruct (empty_message_steps [""%string] initial_globals eq_refl Hst)
    as (_ & (g5 & g6 & Hrun & _ & He & Hstep & He6 & _) & _).
  exists g5, g6. repeat split; assumption.
Defined.

(** C5 as stated fails: the first call on an empty message does not set
    [message_ended]; the flag is still 0 after each of the first five calls
    and becomes 1 with the sixth. *)
Lemma empty_message_first_call_leaves_flag :
  exists g1,
    signal_message [""%string] initial_globals = Some g1 /\
    message_ended g1 = 0 /\
    message_ended g1 <> 1 /\
    message_ended_history 6 [""%string] initial_globals = [0; 0; 0; 0; 0; 1].
Proof.
  eexists. split; [vm_compute; reflexivity|].
  split; [vm_compute; reflexivity|].
  split; [vm_compute; intros H; discriminate H|].
  vm_compute; reflexivity.
Qed.

(** ** The selection of a message *)

Lemma normalize_message_index_range (index : Z) :
  0 <= normalize_message_index index < num_messages.
Proof.
  unfold normalize_message_index, num_messages.
  pose proof (CIntFacts.to_ushort_range index) as H. unfold CInt.in_ushort in H.
  pose proof (Z.rem_bound_pos (CInt.to_ushort index) 3 ltac:(lia) ltac:(lia)).
  rewrite CIntFacts.to_ushort_small; lia.
Qed.

Lemma normalize_message_index_small (index : Z) :
  0 <= index < 65536 ->
  normalize_message_index index = index mod num_messages.
Proof.
  intros H. unfold normalize_message_index, num_messages.
  rewrite (CIntFacts.to_ushort_small index H).
  rewrite Z.rem_mod_nonneg by lia.
  pose proof (Z.mod_pos_bound index 3 ltac:(lia)).
  apply CIntFacts.to_ushort_small. lia.
Qed.

(** A call of [signal_message] does not touch the selection variables. *)
Lemma selection_step (msgs : list string) (g : Globals) :
  match signal_message msgs g with
  | Some g' =>
      message_index g' = message_index g /\
      button_pressed g' = button_pressed g /\
      next_message_index g' = next_message_index g
  | None => True
  end.
Proof.
  destruct (signal_message msgs g) as [g'|] eqn:Hstep; [|exact I].
  revert Hstep. signal_message_cases; intros [= <-]; repeat split.
Qed.

(** The call that sets [message_ended] rewinds the cursor. *)
Lemma sets_message_ended_rewinds (msgs : list string) (g g' : Globals) :
  sets_message_ended msgs g = true ->
  signal_message msgs g = Some g' -> at_start g'.
Proof.
  unfold sets_message_ended, current_character, signal_message.
  destruct (nth_error msgs _) as [m|]; [|discriminate].
  destruct (c_index m _) as [c|]; [|discriminate].
  destruct (is_nul c); [|discriminate]. cbn [negb andb].
  destruct (phase g <=? word_pause_len); [discriminate|].
  intros _ [= <-]. repeat split.
Qed.

Lemma cursor_inv_ext (slack : Z) (msgs : list string) (g g' : Globals) :
  message_index g' = message_index g ->
  character_index g' = character_index g ->
  symbol_index g' = symbol_index g ->
  phase g' = phase g ->
  cursor_inv_with slack msgs g' = cursor_inv_with slack msgs g.
Proof.
  intros Hm Hc Hs Hp.
  unfold cursor_inv_with, phase_bound, current_character.
  now rewrite Hm, Hc, Hs, Hp.
Qed.

Lemma messages_defined (i : Z) :
  0 <= i < num_messages ->
  exists message character,
    nth_error messages (Z.to_nat i) = Some message /\
    c_index message 0 = Some character /\
    is_nul character = false.
Proof.
  unfold num_messages. intros H.
  assert (Hi : i = 0 \/ i = 1 \/ i = 2) by lia.
  destruct Hi as [-> | [-> | ->]]; do 2 eexists; repeat split.
Qed.

Section SystemInvariant.

Lemma system_inv_initial : system_inv initial_globals.
Proof.
  unfold system_inv, at_start, num_messages. cbn.
  repeat split; try lia; auto.
Qed.

Lemma system_inv_tick (g : Globals) :
  system_inv g ->
  exists g', signal_message messages g = Some g' /\ system_inv g'.
Proof.
  intros (Hmi & Hsel & Hcur & Hend).
  destruct (cursor_inv_step messages g Hcur) as (g' & Hstep & Hcur').
  exists g'. split; [exact Hstep|].
  pose proof (selection_step messages g) as Hsame.
  pose proof (message_ended_step messages g) as He.
  rewrite Hstep in Hsame, He. destruct Hsame as (Hmi' & Hbp' & Hnext').
  unfold system_inv. rewrite Hmi', Hbp', Hnext'.
  repeat split; try tauto.
  destruct (sets_message_ended messages g) eqn:Hset.
  - right. split; [exact He|].
    exact (sets_message_ended_rewinds messages g g' Hset Hstep).
  - left. rewrite He.
    destruct (messages_defined (message_index g) Hmi) as (m & c0 & Hm & Hc0 & Hn0).
    rewrite (current_character_eq messages g m Hm).
    destruct (c_index m (character_index g)) as [c|] eqn:Hc; [|reflexivity].
    destruct (is_nul c) eqn:Hn; [|reflexivity].
    destruct Hend as [H0 | [_ (Hci & _)]]; [exact H0|].
    rewrite Hci in Hc. congruence.
Qed.

Lemma system_inv_buttons (g : Globals) :
  system_inv g -> system_inv (gpioButtonFxn0 g) /\ system_inv (gpioButtonFxn1 g).
Proof.
  intros (Hmi & Hsel & Hcur & Hend).
  unfold num_messages in *.
  unfold gpioButtonFxn0, gpioButtonFxn1.
  destruct (Z.eqb_spec (button_pressed g) 0) as [H0|H1].
  - destruct Hsel as [[_ Hnext] | [Hbp _]]; [|lia].
    split; unfold system_inv, num_messages; cbn -[CInt.to_uchar];
      rewrite CIntFacts.to_uchar_small by lia;
      (split; [exact Hmi|]); (split; [right; lia|]);
      (split; [|exact Hend]);
      rewrite <- Hcur; now apply cursor_inv_ext.
  - split; unfold system_inv, num_messages; tauto.
Qed.

Lemma try_apply_fires (g : Globals) :
  system_inv g -> apply_condition g = true ->
  button_pressed g = 1 /\ message_ended g = 1 /\ at_start g /\
  normalize_message_index (next_message_index g) <> message_index g /\
  try_apply g =
    set_button_pressed 0 (set_message_ended 0
      (set_message_index (normalize_message_index (next_message_index g))
        (set_next_message_index
           (normalize_message_index (next_message_index g)) g))).
Proof.
  intros (Hmi & Hsel & Hcur & Hend) Hcond.
  unfold num_messages in *.
  unfold try_apply. rewrite Hcond. unfold apply_condition in Hcond.
  apply andb_true_iff in Hcond. destruct Hcond as [Hne He].
  apply negb_true_iff, Z.eqb_neq in Hne. apply Z.eqb_eq in He.
  destruct Hsel as [[_ Hnext] | [Hbp Hnext]]; [congruence|].
  destruct Hend as [H0 | [_ Hst]]; [lia|].
  pose proof (normalize_message_index_range (next_message_index g)) as Hr.
  unfold num_messages in Hr.
  rewrite CIntFacts.to_uchar_small, CIntFacts.to_ushort_small by lia.
  repeat split; try assumption; try apply Hst.
  rewrite normalize_message_index_small by lia. unfold num_messages.
  assert (Hcases : message_index g = 0 \/ message_index g = 1 \/
                   message_index g = 2) by lia.
  destruct Hcases as [E | [E | E]]; rewrite E in *;
    destruct Hnext as [-> | ->]; vm_compute; discriminate.
Qed.

Lemma system_inv_apply (g : Globals) : system_inv g -> system_inv (try_apply g).
Proof.
  intros Hinv. destruct (apply_condition g) eqn:Hcond.
  - destruct (try_apply_fires g Hinv Hcond) as (_ & _ & Hst & _ & ->).
    pose proof (normalize_message_index_range (next_message_index g)) as Hr.
    destruct (messages_defined _ Hr) as (m & c & Hm & Hc & _).
    destruct Hst as (Hci & Hsi & Hp).
    unfold system_inv. cbn.
    split; [exact Hr|]. split; [left; split; reflexivity|].
    split; [|left; reflexivity].
    apply (cursor_inv_fresh messages 1 ltac:(lia) _ m c); cbn;
      rewrite ?Hci, ?Hsi; try assumption; try tauto.
    pose proof (get_morse_strlen c). lia.
  - unfold try_apply. now rewrite Hcond.
Qed.

Lemma system_inv_event (e : event) (g : Globals) :
  system_inv g -> exists g', do_event e g = Some g' /\ system_inv g'.
Proof.
  intros Hinv. destruct e; simpl.
  - now apply system_inv_tick.
  - eexists. split; [reflexivity|]. now apply system_inv_apply.
  - eexists. split; [reflexivity|].
    destruct b; simpl; now apply system_inv_buttons.
Qed.

Lemma system_inv_exec (evs : list event) :
  forall g, system_inv g ->
  exists g', exec evs g = Some g' /\ system_inv g'.
Proof.
  induction evs as [|e evs IH]; intros g Hinv; simpl.
  - eauto.
  - destruct (system_inv_event e g Hinv) as (g1 & -> & Hinv1).
    now apply IH.
Qed.

Lemma reachable_system_inv (g : Globals) : reachable g -> system_inv g.
Proof.
  intros [evs Hexec].
  destruct (system_inv_exec evs initial_globals system_inv_initial)
    as (g' & Hexec' & Hinv).
  congruence.
Qed.

End SystemInvariant.

(** Whenever the selection test fires it clears [message_ended] and
    [button_pressed], in any state. *)
Lemma try_apply_clears_flags (g : Globals) :
  apply_condition g = true ->
  message_ended (try_apply g) = 0 /\ button_pressed (try_apply g) = 0.
Proof. intros H. unfold try_apply. rewrite H. split; reflexivity. Qed.

(** C4. In every state the program reaches, the selection test of the
    main loop fires exactly when the requested index modulo the number of
    messages, which is what [normalize_message_index] returns for it,
    differs from the current index and [message_ended] is 1.  When it
    fires, the current index (and the requested index) becomes the
    requested index modulo the number of messages, a value below
    [num_messages], and [button_pressed] and [message_ended] are cleared;
    the cursor is not touched.  When it does not fire, nothing changes. *)
Theorem try_apply_selects :
  forall g : Globals,
    reachable g ->
    normalize_message_index (next_message_index g) =
      next_message_index g mod num_messages /\
    (apply_condition g = true <->
     next_message_index g mod num_messages <> message_index g /\
     message_ended g = 1) /\
    (apply_condition g = true ->
     message_index (try_apply g) = next_message_index g mod num_messages /\
     next_message_index (try_apply g) =
       next_message_index g mod num_messages /\
     0 <= message_index (try_apply g) < num_messages /\
     message_index (try_apply g) <> message_index g /\
     button_pressed (try_apply g) = 0 /\
     message_ended (try_apply g) = 0 /\
     character_index (try_apply g) = character_index g /\
     symbol_index (try_apply g) = symbol_index g /\
     phase (try_apply g) = phase g) /\
    (apply_condition g = false -> try_apply g = g).
Proof.
  intros g Hreach. pose proof (reachable_system_inv g Hreach) as Hinv.
  assert (Hnorm : normalize_message_index (next_message_index g) =
                  next_message_index g mod num_messages).
  { destruct Hinv as (Hmi & Hsel & _). unfold num_messages in Hmi, Hsel.
    apply normalize_message_index_small.
    destruct Hsel as [[_ H] | [_ [H | H]]]; lia. }
  split; [exact Hnorm|]. rewrite <- Hnorm.
  split; [|split].
  - split.
    + intros Hcond.
      destruct (try_apply_fires g Hinv Hcond) as (_ & He & _ & Hne & _).
      split; assumption.
    + intros [Hne He]. unfold apply_condition.
      apply andb_true_iff. split; [|now apply Z.eqb_eq].
      apply negb_true_iff, Z.eqb_neq. intros Heq. apply Hne.
      destruct Hinv as (Hmi & _). unfold num_messages in Hmi.
      rewrite Heq, normalize_message_index_small by lia.
      unfold num_messages. apply Z.mod_small. lia.
  - intros Hcond.
    destruct (try_apply_fires g Hinv Hcond) as (_ & _ & _ & Hne & ->).
    pose proof (normalize_message_index_range (next_message_index g)) as Hr.
    cbn. repeat split; try assumption; apply Hr.
  - intros Hcond. unfold try_apply. now rewrite Hcond.
Qed.

Lemma try_apply_selects_witness :
  exists g,
    exec (Press CONFIG_GPIO_BUTTON_1 :: repeat Tick 32 ++
          Apply :: Press CONFIG_GPIO_BUTTON_0 :: repeat Tick 51)
         initial_globals = Some g /\
    message_index g = 2 /\
    next_message_index g = 3 /\
    apply_condition g = true /\
    message_index (try_apply g) = 0 /\
    button_pressed (try_apply g) = 0.
Proof.
  eexists. split; [vm_compute; reflexivity|].
  match goal with
  | |- message_index ?g0 = 2 /\ _ =>
      assert (Hreach : reachable g0)
        by (exists (Press CONFIG_GPIO_BUTTON_1 :: repeat Tick 32 ++
                    Apply :: Press CONFIG_GPIO_BUTTON_0 :: repeat Tick 51);
            vm_compute; reflexivity);
      destruct (try_apply_selects g0 Hreach) as (_ & _ & Hfire & _);
      assert (Hcond : apply_condition g0 = true) by (vm_compute; reflexivity);
      destruct (Hfire Hcond) as (Hmi & _ & _ & _ & Hbp & _)
  end.
  split; [reflexivity|]. split; [reflexivity|]. split; [exact Hcond|].
  split; [rewrite Hmi; vm_compute; reflexivity | exact Hbp].
Defined.

(** C9. [message_index] is always a valid index into [messages]: it is 0
    initially; [normalize_message_index] returns a value below
    [num_messages] for every argument; the selection test of the main loop
    either leaves [message_index] alone or assigns it such a value, and
    neither the button handlers nor [signal_message] change it.  Hence
    every sequence of ticks, selection tests and button presses runs without
    a read outside [messages], and in the state it leads to the index is
    below [num_messages] and the next call of [signal_message] succeeds. *)
Theorem message_index_valid :
  message_index initial_globals = 0 /\
  num_messages = Z.of_nat (List.length messages) /\
  (forall index : Z, 0 <= normalize_message_index index < num_messages) /\
  (forall g : Globals,
     message_index (try_apply g) = message_index g \/
     message_index (try_apply g) =
       normalize_message_index (next_message_index g)) /\
  (forall g : Globals,
     message_index (gpioButtonFxn0 g) = message_index g /\
     message_index (gpioButtonFxn1 g) = message_index g /\
     match signal_message messages g with
     | Some g' => message_index g' = message_index g
     | None => True
     end) /\
  (forall evs : list event,
     exists g,
       exec evs initial_globals = Some g /\
       0 <= message_index g < num_messages /\
       exists message g',
         nth_error messages (Z.to_nat (message_index g)) = Some message /\
         signal_message messages g = Some g').
Proof.
  split; [reflexivity|]. split; [reflexivity|].
  split; [exact normalize_message_index_range|].
  split; [|split].
  - intros g. unfold try_apply. destruct (apply_condition g); [right|now left].
    pose proof (normalize_message_index_range (next_message_index g)) as Hr.
    unfold num_messages in Hr. cbn -[CInt.to_uchar CInt.to_ushort].
    rewrite CIntFacts.to_uchar_small, CIntFacts.to_ushort_small by lia.
    reflexivity.
  - intros g. split; [|split].
    + unfold gpioButtonFxn0. now destruct (button_pressed g =? 0).
    + unfold gpioButtonFxn1. now destruct (button_pressed g =? 0).
    + pose proof (selection_step messages g) as H.
      destruct (signal_message messages g); tauto.
  - intros evs.
    destruct (system_inv_exec evs initial_globals system_inv_initial)
      as (g & Hexec & Hinv).
    exists g. split; [exact Hexec|].
    destruct (system_inv_tick g Hinv) as (g' & Hstep & _).
    destruct Hinv as (Hmi & _). split; [exact Hmi|].
    destruct (messages_defined _ Hmi) as (m & _ & Hm & _).
    exists m, g'. split; assumption.
Qed.

(** ** The main loop *)

(** An iteration of the main loop is a tick followed by the selection test,
    or the selection test alone while [checkTime] is below [checkPeriod]. *)
Lemma mainThread_iteration_events (checkTime : Z) (g : Globals) :
  option_map snd (mainThread_iteration messages checkTime g) =
  exec (if checkPeriod <=? checkTime then [Tick; Apply] else [Apply]) g.
Proof.
  unfold mainThread_iteration.
  destruct (checkPeriod <=? checkTime); simpl; [|reflexivity].
  destruct (signal_message messages g); reflexivity.
Qed.

(** The main loop keeps the invariant of the program, whatever the value of
    its counter. *)
Lemma mainThread_iteration_inv (checkTime : Z) (g : Globals) :
  system_inv g ->
  exists checkTime' g',
    mainThread_iteration messages checkTime g = Some (checkTime', g') /\
    system_inv g'.
Proof.
  intros Hinv. unfold mainThread_iteration.
  destruct (checkPeriod <=? checkTime).
  - destruct (system_inv_tick g Hinv) as (g1 & -> & Hinv1).
    do 2 eexists. split; [reflexivity|]. now apply system_inv_apply.
  - do 2 eexists. split; [reflexivity|]. now apply system_inv_apply.
Qed.

(** * Further properties of the code *)

(** ** The Morse table can be decoded *)

Lemma get_morse_decodes (character : ascii) :
  is_lowercase character = true ->
  morse_letter (get_morse character) international_morse = Some character.
Proof.
  destruct character as [[] [] [] [] [] [] [] []];
    vm_compute; intros H; first [discriminate H | reflexivity].
Qed.

(** X1. [get_morse] gives different codes to different lowercase letters:
    a letter can be recovered from its code. *)
Theorem get_morse_injective :
  forall c1 c2 : ascii,
    is_lowercase c1 = true -> is_lowercase c2 = true ->
    get_morse c1 = get_morse c2 -> c1 = c2.
Proof.
  intros c1 c2 H1 H2 Heq.
  pose proof (get_morse_decodes c1 H1) as D1.
  pose proof (get_morse_decodes c2 H2) as D2.
  rewrite Heq in D1. congruence.
Qed.

Lemma get_morse_injective_witness :
  is_lowercase "s" = true /\ get_morse "s" = "..."%string /\
  ("s" = "s")%char.
Proof.
  split; [reflexivity|]. split; [reflexivity|].
  exact (get_morse_injective "s" "s" eq_refl eq_refl eq_refl).
Defined.

(** ** [set_leds] *)

Lemma land_pow2 (k s : Z) :
  0 <= k -> Z.land (2 ^ k) s = if Z.testbit s k then 2 ^ k else 0.
Proof.
  intros Hk. apply Z.bits_inj'. intros n Hn.
  rewrite Z.land_spec, Z.pow2_bits_eqb by exact Hk.
  destruct (Z.eqb_spec k n) as [->|Hne].
  - destruct (Z.testbit s n); simpl.
    + rewrite Z.pow2_bits_eqb by exact Hn. now rewrite Z.eqb_refl.
    + now rewrite Z.bits_0.
  - simpl. destruct (Z.testbit s k).
    + rewrite Z.pow2_bits_eqb by exact Hk.
      symmetry. now apply Z.eqb_neq.
    + now rewrite Z.bits_0.
Qed.

Lemma land_pow2_test (k s : Z) :
  0 <= k -> negb (Z.land (2 ^ k) s =? 0) = Z.testbit s k.
Proof.
  intros Hk. rewrite (land_pow2 k s Hk).
  destruct (Z.testbit s k); [|reflexivity].
  assert (0 < 2 ^ k) by (apply Z.pow_pos_nonneg; lia).
  destruct (Z.eqb_spec (2 ^ k) 0); [lia | reflexivity].
Qed.

(** X2. [set_leds] shows the two low bits of its argument: LED 0 is on
    exactly when bit 0 is set and LED 1 exactly when bit 1 is set, whatever
    the LEDs showed before and whatever the other bits are; nothing else
    changes. *)
Theorem set_leds_bits :
  forall (led_settings : Z) (g : Globals),
    leds (set_leds led_settings g) =
      mkLeds (Z.testbit led_settings 0) (Z.testbit led_settings 1) /\
    led_calls (set_leds led_settings g) =
      led_calls g ++ [mkLeds (Z.testbit led_settings 0) (Z.testbit led_settings 1)] /\
    same_variables g (set_leds led_settings g).
Proof.
  intros s g.
  pose proof (land_pow2_test 0 s ltac:(lia)) as H0.
  pose proof (land_pow2_test 1 s ltac:(lia)) as H1.
  change (2 ^ 0) with 1 in H0. change (2 ^ 1) with 2 in H1.
  unfold set_leds. rewrite H0, H1.
  destruct (Z.testbit s 0), (Z.testbit s 1); cbn; repeat split.
Qed.

(** ** What a call of [signal_message] writes *)

Lemma emitted_one (g g' : Globals) (pattern : Leds) :
  led_calls g' = led_calls g ++ [pattern] -> emitted g g' = [pattern].
Proof. intros H. unfold emitted. rewrite H. apply skipn_length_app. Qed.

(** The four things a call can do to the LEDs, with the symbol that is
    being played when a LED is switched on. *)
Lemma step_patterns (msgs : list string) (g g' : Globals) :
  signal_message msgs g = Some g' ->
  (emitted g g' = [] \/
   (emitted g g' = [pattern_off] /\
    character_index g' = character_index g /\
    symbol_index g' = symbol_index g /\
    sets_message_ended msgs g = false) \/
   (emitted g g' = [pattern_A] /\
    character_index g' = character_index g /\
    symbol_index g' = symbol_index g /\
    current_symbol msgs g = Some "."%char) \/
   (emitted g g' = [pattern_B] /\
    character_index g' = character_index g /\
    symbol_index g' = symbol_index g /\
    current_symbol msgs g = Some "-"%char)).
Proof.
  unfold current_symbol, sets_message_ended, current_character, signal_message.
  destruct (nth_error msgs _) as [m|]; [|discriminate].
  destruct (c_index m _) as [c|]; [|discriminate].
  destruct (is_nul c) eqn:Hn; cbn [negb andb].
  - unfold word_pause.
    destruct (phase g <=? word_pause_len); [|intros [= <-]; left; now apply emitted_nothing].
    destruct (phase g <=? 3); intros [= <-].
    + right; left. repeat split. now apply emitted_one.
    + left. now apply emitted_nothing.
  - cbn [symbol_index set_message_ended phase].
    destruct (c_index (get_morse c) (symbol_index g)) as [s|]; [|discriminate].
    destruct (is_nul s); cbn [negb].
    + unfold character_pause.
      destruct (phase g <=? character_pause_len).
      * destruct (phase g <=? 1); intros [= <-].
        -- right; left. repeat split. now apply emitted_one.
        -- left. now apply emitted_nothing.
      * cbn [character_index set_character_index set_message_ended].
        destruct (c_index m _); [|discriminate].
        intros [= <-]. left. now apply emitted_nothing.
    + destruct (Ascii.eqb_spec s ".") as [->|Hdot];
        [|destruct (Ascii.eqb_spec s "-") as [->|Hdash]].
      * destruct (phase g <? dot_len).
        -- unfold signal_dot.
           destruct (CInt.to_short (phase g) <=? 0); intros [= <-].
           ++ right; right; left. repeat split. now apply emitted_one.
           ++ right; left. repeat split. now apply emitted_one.
        -- cbn [symbol_index set_symbol_index set_message_ended].
           destruct (c_index _ _); [|discriminate].
           intros [= <-]. left. now apply emitted_nothing.
      * destruct (phase g <? dash_len).
        -- unfold signal_dash.
           destruct (phase g <=? 2); intros [= <-].
           ++ right; right; right. repeat split. now apply emitted_one.
           ++ right; left. repeat split. now apply emitted_one.
        -- cbn [symbol_index set_symbol_index set_message_ended].
           destruct (c_index _ _); [|discriminate].
           intros [= <-]. left. now apply emitted_nothing.
      * destruct (phase g <? word_pause_len).
        -- unfold word_pause.
           destruct (phase g <=? 3); intros [= <-].
           ++ right; left. repeat split. now apply emitted_one.
           ++ left. now apply emitted_nothing.
        -- cbn [symbol_index set_symbol_index set_message_ended].
           destruct (c_index _ _); [|discriminate].
           intros [= <-]. left. now apply emitted_nothing.
Qed.

(** X3. A call of [signal_message] calls [set_leds] at most once, and not
    at all when it moves the cursor to another symbol or character or
    ends the message: it writes a pattern or advances, never both. *)
Theorem signal_message_writes_or_advances :
  forall (msgs : list string) (g g' : Globals),
    signal_message msgs g = Some g' ->
    (List.length (emitted g g') <= 1)%nat /\
    (character_index g' <> character_index g \/
     symbol_index g' <> symbol_index g \/
     sets_message_ended msgs g = true ->
     emitted g g' = []).
Proof.
  intros msgs g g' Hstep.
  destruct (step_patterns msgs g g' Hstep)
    as [H | [(H & Hc & Hs & Hq) | [(H & Hc & Hs & Hcur) | (H & Hc & Hs & Hcur)]]];
    rewrite H; (split; [simpl; lia|]); try reflexivity;
    intros [Hm | [Hm | Hm]]; try congruence;
    rewrite (in_character_not_setting msgs g _ Hcur) in Hm; discriminate.
Qed.

Lemma signal_message_writes_or_advances_witness :
  exists g1,
    signal_message messages initial_globals = Some g1 /\
    (List.length (emitted initial_globals g1) <= 1)%nat.
Proof.
  eexists. split; [vm_compute; reflexivity|].
  exact (proj1 (signal_message_writes_or_advances messages initial_globals _
                  eq_refl)).
Defined.

(** X4. [signal_message] never switches both LEDs on: every pattern it
    writes is "off", A or B; it writes A only while a dot is played and B
    only while a dash is played. *)
Theorem signal_message_patterns :
  forall (msgs : list string) (g g' : Globals),
    signal_message msgs g = Some g' ->
    Forall (fun pattern =>
              pattern = pattern_off \/
              (pattern = pattern_A /\ current_symbol msgs g = Some "."%char) \/
              (pattern = pattern_B /\ current_symbol msgs g = Some "-"%char))
           (emitted g g') /\
    Forall (fun pattern => led_0 pattern && led_1 pattern = false)
           (emitted g g').
Proof.
  intros msgs g g' Hstep.
  destruct (step_patterns msgs g g' Hstep)
    as [H | [(H & _) | [(H & _ & _ & Hcur) | (H & _ & _ & Hcur)]]];
    rewrite H; split;
    first [ apply Forall_nil
          | apply Forall_cons; [|apply Forall_nil] ];
    try reflexivity.
  - now left.
  - right; left. now split.
  - right; right. now split.
Qed.

Lemma signal_message_patterns_witness :
  exists g1,
    signal_message messages initial_globals = Some g1 /\
    emitted initial_globals g1 = [pattern_A] /\
    Forall (fun pattern => led_0 pattern && led_1 pattern = false)
           (emitted initial_globals g1).
Proof.
  eexists. split; [vm_compute; reflexivity|].
  split; [vm_compute; reflexivity|].
  exact (proj2 (signal_message_patterns messages initial_globals _ eq_refl)).
Defined.

(** ** The patterns of a run of calls *)

Section PatternsOfRuns.

Variable msgs : list string.

Lemma patterns_run_add (n k : nat) (g g' : Globals) :
  run n msgs g = Some g' ->
  patterns_run (n + k) msgs g = patterns_run n msgs g ++ patterns_run k msgs g'.
Proof.
  revert g. induction n as [|n IH]; intros g; simpl.
  - now intros [= ->].
  - destruct (signal_message msgs g) as [g1|]; [|discriminate].
    intros H. now rewrite (IH g1 H), app_assoc.
Qed.

Lemma led_calls_run (n : nat) (g g' : Globals) :
  run n msgs g = Some g' ->
  led_calls g' = led_calls g ++ patterns_run n msgs g.
Proof.
  revert g. induction n as [|n IH]; intros g; simpl.
  - intros [= ->]. now rewrite app_nil_r.
  - destruct (signal_message msgs g) as [g1|] eqn:Hstep; [|discriminate].
    intros H. rewrite (IH g1 H), (led_calls_step msgs g g1 Hstep).
    now rewrite app_assoc.
Qed.

Lemma patterns_run_one (g g' : Globals) :
  signal_message msgs g = Some g' ->
  patterns_run 1 msgs g = emitted g g'.
Proof. intros H. simpl. rewrite H. apply app_nil_r. Qed.

(** An activity that lasts while the phase is below [limit]: each call made
    [inside] it at phase [p] writes [out p] and increments the phase. *)
Section PhaseLoop.

Variable inside : Globals -> Prop.
Variable limit : Z.
Variable out : Z -> list Leds.

Hypothesis inside_step :
  forall g, inside g -> 0 <= phase g < limit ->
  exists g', signal_message msgs g = Some g' /\ inside g' /\
    phase g' = phase g + 1 /\ emitted g g' = out (phase g).

Lemma phase_loop (k : nat) :
  forall g, inside g -> 0 <= phase g -> phase g + Z.of_nat k = limit ->
  exists g', run k msgs g = Some g' /\ inside g' /\ phase g' = limit /\
    patterns_run k msgs g = phase_patterns out (phase g) k.
Proof.
  induction k as [|k IH]; intros g Hin Hp Hk.
  - exists g. simpl. repeat split; [assumption | lia].
  - destruct (inside_step g Hin) as (g1 & Hstep & Hin1 & Hp1 & Hout); [lia|].
    destruct (IH g1 Hin1) as (g' & Hrun & Hin' & Hp' & Hpat); [lia | lia |].
    exists g'. simpl. rewrite Hstep, Hout, Hpat, Hp1.
    repeat split; assumption.
Qed.

End PhaseLoop.

(** One symbol. *)
Lemma symbol_patterns_run (g : Globals) (symbol : ascii) :
  current_symbol msgs g = Some symbol -> is_nul symbol = false ->
  phase g = 0 ->
  patterns_run (symbol_steps symbol) msgs g = symbol_patterns symbol.
Proof.
  intros Hs Hn Hp. pose proof (symbol_len_range symbol) as Hlen.
  destruct (phase_loop (fun g => current_symbol msgs g = Some symbol)
              (symbol_len symbol) (fun p => [symbol_pattern symbol p]))
    with (k := Z.to_nat (symbol_len symbol)) (g := g)
    as (g1 & Hrun & Hin & Hp1 & Hpat); try assumption; try lia.
  { intros g0 Hin0 Hp0.
    destruct (step_symbol msgs g0 symbol Hin0 Hn)
      as (g' & Hstep & _ & _ & _ & Hmi & Hci & Hcase); [lia|].
    destruct (Z.ltb_spec (phase g0) (symbol_len symbol)); [|lia].
    destruct Hcase as (Hout & Hsi & Hp').
    exists g'. repeat split; try assumption.
    now rewrite (current_symbol_ext msgs g0 g'). }
  destruct (step_symbol msgs g1 symbol Hin Hn)
    as (g' & Hstep & _ & _ & _ & _ & _ & Hcase); [lia|].
  destruct (Z.ltb_spec (phase g1) (symbol_len symbol)); [lia|].
  destruct Hcase as (Hout & _).
  rewrite symbol_steps_eq, (patterns_run_add _ 1 g g1 Hrun).
  rewrite (patterns_run_one g1 g' Hstep), Hout, Hpat, Hp, app_nil_r.
  unfold symbol_patterns, symbol_len, symbol_pattern.
  destruct (Ascii.eqb symbol "."), (Ascii.eqb symbol "-"); reflexivity.
Qed.

(** The pause after a character. *)
Lemma character_pause_patterns_run (g : Globals) (symbol : ascii) :
  current_symbol msgs g = Some symbol -> is_nul symbol = true ->
  phase g = 0 ->
  patterns_run 4 msgs g = [pattern_off; pattern_off].
Proof.
  intros Hs Hn Hp.
  destruct (phase_loop (fun g => current_symbol msgs g = Some symbol)
              (character_pause_len + 1)
              (fun p => if p <=? 1 then [pattern_off] else []))
    with (k := 3%nat) (g := g)
    as (g1 & Hrun & Hin & Hp1 & Hpat); try assumption; try lia.
  { unfold character_pause_len. intros g0 Hin0 Hp0.
    destruct (step_character_pause msgs g0 symbol Hin0 Hn)
      as (g' & Hstep & _ & _ & _ & Hmi & Hcase); [lia|].
    destruct (Z.leb_spec (phase g0) character_pause_len);
      [|unfold character_pause_len in *; lia].
    destruct Hcase as (Hout & Hci & Hsi & Hp').
    exists g'. repeat split; try assumption.
    now rewrite (current_symbol_ext msgs g0 g'). }
  { rewrite Hp. reflexivity. }
  unfold character_pause_len in Hp1.
  destruct (step_character_pause msgs g1 symbol Hin Hn)
    as (g' & Hstep & _ & _ & _ & _ & Hcase); [lia|].
  destruct (Z.leb_spec (phase g1) character_pause_len);
    [unfold character_pause_len in *; lia|].
  destruct Hcase as (Hout & _).
  change 4%nat with (3 + 1)%nat. rewrite (patterns_run_add _ 1 g g1 Hrun).
  rewrite (patterns_run_one g1 g' Hstep), Hout, Hpat, Hp. reflexivity.
Qed.

(** The pause after a message, with the call that ends the message. *)
Lemma word_pause_patterns_run (g : Globals) (character : ascii) :
  current_character msgs g = Some character -> is_nul character = true ->
  phase g = 0 ->
  patterns_run 6 msgs g =
    [pattern_off; pattern_off; pattern_off; pattern_off].
Proof.
  intros Hc Hn Hp.
  destruct (phase_loop (fun g => current_character msgs g = Some character)
              (word_pause_len + 1)
              (fun p => if p <=? 3 then [pattern_off] else []))
    with (k := 5%nat) (g := g)
    as (g1 & Hrun & Hin & Hp1 & Hpat); try assumption; try lia.
  { unfold word_pause_len. intros g0 Hin0 Hp0.
    destruct (step_word_pause msgs g0 character Hin0 Hn)
      as (g' & Hstep & _ & _ & Hmi & Hcase); [lia|].
    destruct (Z.leb_spec (phase g0) word_pause_len);
      [|unfold word_pause_len in *; lia].
    destruct Hcase as (Hout & _ & Hci & Hsi & Hp').
    exists g'. repeat split; try assumption.
    now rewrite (current_character_ext msgs g0 g'). }
  { rewrite Hp. reflexivity. }
  unfold word_pause_len in Hp1.
  destruct (step_word_pause msgs g1 character Hin Hn)
    as (g' & Hstep & _ & _ & _ & Hcase); [lia|].
  destruct (Z.leb_spec (phase g1) word_pause_len);
    [unfold word_pause_len in *; lia|].
  destruct Hcase as (Hout & _).
  change 6%nat with (5 + 1)%nat. rewrite (patterns_run_add _ 1 g g1 Hrun).
  rewrite (patterns_run_one g1 g' Hstep), Hout, Hpat, Hp. reflexivity.
Qed.

End PatternsOfRuns.

(** ** The patterns of a message *)

Section PatternsOfMessages.

Variable msgs : list string.

(** The symbols of a character that are still to be played. *)
Lemma code_patterns_run (rest : string) :
  forall (played : string) (g : Globals) (message : string) (character : ascii),
    nth_error msgs (Z.to_nat (message_index g)) = Some message ->
    c_index message (character_index g) = Some character ->
    is_nul character = false ->
    get_morse character = (played ++ rest)%string ->
    symbol_index g = strlen played -> phase g = 0 ->
    patterns_run (symbols_steps rest) msgs g = code_patterns rest.
Proof.
  induction rest as [|a rest IH]; intros played g m c Hm Hc Hn Hcode Hsi Hp.
  - reflexivity.
  - pose proof (get_morse_nul_free c) as Hfree.
    rewrite Hcode, nul_free_append in Hfree.
    apply andb_true_iff in Hfree. destruct Hfree as [_ Hfree]. simpl in Hfree.
    apply andb_true_iff in Hfree. destruct Hfree as [Ha _].
    apply negb_true_iff in Ha.
    assert (Hcur : current_symbol msgs g = Some a).
    { rewrite (current_symbol_eq msgs g m c Hm Hc Hn), Hcode, Hsi.
      apply c_index_append. }
    pose proof (symbol_len_range a) as Hlen.
    destruct (symbol_loop msgs (Z.to_nat (symbol_len a)) g a Hcur Ha)
      as (g1 & [Hrun _] & _ & Hmi1 & Hci1 & Hsi1 & Hp1); [lia | lia |].
    rewrite <- symbol_steps_eq in Hrun.
    pose proof (get_morse_strlen c) as Hmax.
    rewrite Hcode, strlen_append in Hmax.
    assert (Hsi1' : symbol_index g1 = strlen (played ++ String a "")).
    { rewrite Hsi1, Hsi, strlen_append.
      unfold strlen in *. simpl String.length in *.
      rewrite CIntFacts.to_ushort_small; lia. }
    simpl symbols_steps. simpl code_patterns.
    rewrite (patterns_run_add msgs _ _ g g1 Hrun).
    rewrite (symbol_patterns_run msgs g a Hcur Ha Hp).
    f_equal.
    apply (IH (played ++ String a "")%string g1 m c); try assumption.
    + now rewrite Hmi1.
    + now rewrite Hci1.
    + now rewrite append_assoc.
Qed.

(** One character. *)
Lemma character_patterns_run (g : Globals) (message : string)
      (character : ascii) :
  nth_error msgs (Z.to_nat (message_index g)) = Some message ->
  c_index message (character_index g) = Some character ->
  is_nul character = false ->
  symbol_index g = 0 -> phase g = 0 ->
  patterns_run (character_steps character) msgs g =
    character_patterns character.
Proof.
  intros Hm Hc Hn Hsi Hp.
  destruct (symbols_run msgs (get_morse character) ""%string g message character)
    as (g1 & [Hrun _] & Hmi1 & Hci1 & Hsi1 & Hp1); try assumption;
    [reflexivity|].
  assert (Hcur : current_symbol msgs g1 = Some NUL).
  { rewrite (current_symbol_eq msgs g1 message character); try congruence.
    rewrite Hsi1. apply c_index_terminator. }
  unfold character_steps, character_patterns.
  rewrite (patterns_run_add msgs _ _ g g1 Hrun).
  rewrite (code_patterns_run (get_morse character) ""%string g message character);
    try assumption; [|reflexivity].
  now rewrite (character_pause_patterns_run msgs g1 NUL Hcur eq_refl Hp1).
Qed.

(** The characters of a message that are still to be played. *)
Lemma characters_patterns_run (rest : string) :
  forall (played : string) (g : Globals) (message : string),
    nth_error msgs (Z.to_nat (message_index g)) = Some message ->
    message = (played ++ rest)%string ->
    nul_free rest = true -> strlen message < 65536 ->
    character_index g = strlen played ->
    symbol_index g = 0 -> phase g = 0 ->
    patterns_run (characters_steps rest) msgs g = characters_patterns rest.
Proof.
  induction rest as [|a rest IH]; intros played g m Hm Hsplit Hfree Hlen Hci Hsi Hp.
  - reflexivity.
  - simpl in Hfree. apply andb_true_iff in Hfree. destruct Hfree as [Ha Hfree].
    apply negb_true_iff in Ha.
    assert (Hc : c_index m (character_index g) = Some a).
    { rewrite Hsplit, Hci. apply c_index_append. }
    destruct (character_run msgs g m a Hm Hc Ha Hsi Hp)
      as (g1 & [Hrun _] & _ & Hmi1 & Hci1 & Hsi1 & Hp1).
    assert (Hci1' : character_index g1 = strlen (played ++ String a "")).
    { rewrite Hci1, Hci, strlen_append.
      rewrite Hsplit, strlen_append in Hlen.
      unfold strlen in *. simpl String.length in *.
      rewrite CIntFacts.to_ushort_small; lia. }
    simpl characters_steps. simpl characters_patterns.
    rewrite (patterns_run_add msgs _ _ g g1 Hrun).
    rewrite (character_patterns_run g m a Hm Hc Ha Hsi Hp).
    f_equal.
    apply (IH (played ++ String a "")%string g1 m); try assumption.
    + now rewrite Hmi1.
    + now rewrite append_assoc.
Qed.

(** A whole message from its start. *)
Lemma traversal_patterns (g : Globals) (message : string) :
  nth_error msgs (Z.to_nat (message_index g)) = Some message ->
  nul_free message = true -> strlen message < 65536 ->
  at_start g ->
  exists g',
    run (traversal_steps message) msgs g = Some g' /\
    patterns_run (traversal_steps message) msgs g = message_patterns message /\
    message_index g' = message_index g /\
    button_pressed g' = button_pressed g /\
    next_message_index g' = next_message_index g /\
    message_ended g' = 1 /\
    at_start g'.
Proof.
  intros Hm Hfree Hlen (Hci & Hsi & Hp).
  destruct (characters_run msgs message ""%string g message)
    as (g0 & [Hrun0 _] & _ & _ & Hmi0 & Hci0 & Hsi0 & Hp0); try assumption;
    [reflexivity|].
  assert (Hcur : current_character msgs g0 = Some NUL).
  { rewrite (current_character_eq msgs g0 message) by congruence.
    rewrite Hci0. apply c_index_terminator. }
  destruct (word_pause_loop msgs 5 g0 NUL Hcur eq_refl)
    as (g1 & g2 & [Hrun1 _] & _ & _ & Hstep & He2 & Hmi2 & Hst);
    [lia | rewrite Hp0; reflexivity |].
  assert (Hrun : run (traversal_steps message) msgs g = Some g2).
  { unfold traversal_steps.
    replace 6%nat with (5 + 1)%nat by reflexivity.
    rewrite run_add, Hrun0, run_add, Hrun1. simpl. now rewrite Hstep. }
  exists g2. split; [exact Hrun|]. split.
  - unfold traversal_steps, message_patterns.
    rewrite (patterns_run_add msgs _ _ g g0 Hrun0).
    rewrite (characters_patterns_run message ""%string g message);
      try assumption; [|reflexivity].
    now rewrite (word_pause_patterns_run msgs g0 NUL Hcur eq_refl Hp0).
  - repeat split; try congruence; try apply Hst.
    + clear - Hrun. revert g Hrun.
      induction (traversal_steps message) as [|n IH]; intros g; simpl.
      * now intros [= ->].
      * pose proof (selection_step msgs g) as Hsel.
        destruct (signal_message msgs g) as [g1|]; [|discriminate].
        intros H. rewrite (IH g1 H). tauto.
    + clear - Hrun. revert g Hrun.
      induction (traversal_steps message) as [|n IH]; intros g; simpl.
      * now intros [= ->].
      * pose proof (selection_step msgs g) as Hsel.
        destruct (signal_message msgs g) as [g1|]; [|discriminate].
        intros H. rewrite (IH g1 H). tauto.
Qed.

End PatternsOfMessages.

(** X5. Playing a message from its start writes its Morse code to the LEDs
    and nothing else: for each character the patterns of its symbols in
    order (A, off for a dot; B, B, B, off for a dash; four times off for
    any other symbol), then off twice; after the last character off four
    times.  The calls that do this are [traversal_steps] many; they leave
    the cursor at the start of the message with [message_ended] set and the
    selection variables untouched. *)
Theorem traversal_writes_message_patterns :
  forall (msgs : list string) (g : Globals) (message : string),
    nth_error msgs (Z.to_nat (message_index g)) = Some message ->
    nul_free message = true -> strlen message < 65536 ->
    at_start g ->
    exists g',
      run (traversal_steps message) msgs g = Some g' /\
      led_calls g' = led_calls g ++ message_patterns message /\
      message_index g' = message_index g /\
      button_pressed g' = button_pressed g /\
      next_message_index g' = next_message_index g /\
      message_ended g' = 1 /\
      at_start g'.
Proof.
  intros msgs g message Hm Hfree Hlen Hst.
  destruct (traversal_patterns msgs g message Hm Hfree Hlen Hst)
    as (g' & Hrun & Hpat & Hrest).
  exists g'. split; [exact Hrun|]. split; [|exact Hrest].
  now rewrite (led_calls_run msgs _ g g' Hrun), Hpat.
Qed.

Lemma traversal_writes_message_patterns_witness :
  nth_error messages (Z.to_nat (message_index (set_message_index 2 initial_globals)))
    = Some "sos"%string /\
  at_start (set_message_index 2 initial_globals) /\
  exists g',
    run 51 messages (set_message_index 2 initial_globals) = Some g' /\
    led_calls g' = message_patterns "sos".
Proof.
  assert (Hst : at_start (set_message_index 2 initial_globals))
    by (repeat split).
  split; [reflexivity|]. split; [exact Hst|].
  destruct (traversal_writes_message_patterns messages
              (set_message_index 2 initial_globals) "sos"%string
              eq_refl eq_refl ltac:(vm_compute; reflexivity) Hst)
    as (g' & Hrun & Hled & _).
  exists g'. split; [exact Hrun | exact Hled].
Defined.

(** X6. A message is repeated as long as nothing else is selected: [k]
    traversals in a row, made by [k * traversal_steps] calls, write the
    patterns of the message [k] times and end at the start of the same
    message. *)
Theorem traversal_repeats :
  forall (msgs : list string) (message : string) (k : nat) (g : Globals),
    nth_error msgs (Z.to_nat (message_index g)) = Some message ->
    nul_free message = true -> strlen message < 65536 ->
    at_start g ->
    exists g',
      run (k * traversal_steps message) msgs g = Some g' /\
      led_calls g' =
        led_calls g ++ concat (repeat (message_patterns message) k) /\
      message_index g' = message_index g /\
      at_start g'.
Proof.
  intros msgs message k. induction k as [|k IH]; intros g Hm Hfree Hlen Hst.
  - exists g. simpl. rewrite app_nil_r. repeat split; apply Hst.
  - destruct (traversal_patterns msgs g message Hm Hfree Hlen Hst)
      as (g1 & Hrun & Hpat & Hmi & _ & _ & _ & Hst1).
    destruct (IH g1) as (g' & Hrun' & Hled' & Hmi' & Hst'); try assumption.
    { now rewrite Hmi. }
    exists g'. simpl Nat.mul. rewrite run_add, Hrun.
    split; [exact Hrun'|]. split; [|split; [congruence | exact Hst']].
    rewrite Hled', (led_calls_run msgs _ g g1 Hrun), Hpat.
    simpl. now rewrite <- app_assoc.
Qed.

Lemma traversal_repeats_witness :
  nth_error messages (Z.to_nat (message_index initial_globals)) = Some "ss"%string /\
  at_start initial_globals /\
  exists g',
    run 64 messages initial_globals = Some g' /\
    led_calls g' = message_patterns "ss" ++ message_patterns "ss" /\
    message_index g' = 0.
Proof.
  assert (Hst : at_start initial_globals) by (repeat split).
  split; [reflexivity|]. split; [exact Hst|].
  destruct (traversal_repeats messages "ss"%string 2 initial_globals
              eq_refl eq_refl ltac:(vm_compute; reflexivity) Hst)
    as (g' & Hrun & Hled & Hmi & _).
  exists g'. split; [exact Hrun|]. split; [|exact Hmi].
  rewrite Hled. reflexivity.
Defined.

(** ** Sequences of events *)

Lemma exec_app (evs evs' : list event) (g : Globals) :
  exec (evs ++ evs') g =
  match exec evs g with Some g' => exec evs' g' | None => None end.
Proof.
  revert g. induction evs as [|e evs IH]; intros g; simpl; [reflexivity|].
  destruct (do_event e g); [apply IH | reflexivity].
Qed.

Lemma exec_ticks (n : nat) (g : Globals) :
  exec (repeat Tick n) g = run n messages g.
Proof.
  revert g. induction n as [|n IH]; intros g; simpl; [reflexivity|].
  destruct (signal_message messages g); [apply IH | reflexivity].
Qed.

Lemma messages_wellformed (g : Globals) :
  0 <= message_index g < num_messages ->
  nth_error messages (Z.to_nat (message_index g)) = Some (current_message g) /\
  nul_free (current_message g) = true /\
  strlen (current_message g) < 65536 /\
  current_message g <> ""%string.
Proof.
  unfold num_messages, current_message. intros H.
  assert (Hi : message_index g = 0 \/ message_index g = 1 \/
               message_index g = 2) by lia.
  destruct Hi as [-> | [-> | ->]]; repeat split; vm_compute; discriminate.
Qed.

Lemma button_step_range (b : button) : 1 <= button_step b <= 2.
Proof. destruct b; unfold button_step, num_messages; lia. Qed.

(** A press that finds no press pending. *)
Lemma press_unlatched (b : button) (g : Globals) :
  button_pressed g = 0 ->
  press b g =
    set_button_pressed 1
      (set_next_message_index
         (CInt.to_uchar (next_message_index g + button_step b)) g).
Proof.
  intros H. destruct b; simpl; unfold gpioButtonFxn0, gpioButtonFxn1;
    rewrite H; simpl; unfold button_step; [reflexivity|].
  now replace (next_message_index g + num_messages - 1)
    with (next_message_index g + (num_messages - 1)) by lia.
Qed.

Lemma run_selection (msgs : list string) (n : nat) :
  forall g g', run n msgs g = Some g' ->
    message_index g' = message_index g /\
    button_pressed g' = button_pressed g /\
    next_message_index g' = next_message_index g.
Proof.
  induction n as [|n IH]; intros g g'; simpl.
  - intros [= ->]. repeat split.
  - pose proof (selection_step msgs g) as Hsel.
    destruct (signal_message msgs g) as [g1|]; [|discriminate].
    intros H. destruct (IH g1 g' H) as (-> & -> & ->). exact Hsel.
Qed.

(** Press, play to the end, select. *)
Lemma play_and_select_spec (b : button) (g : Globals) :
  system_inv g -> button_pressed g = 0 -> at_start g ->
  exists g',
    play_and_select b g = Some g' /\
    message_index g' = (message_index g + button_step b) mod num_messages /\
    led_calls g' = led_calls g ++ message_patterns (current_message g) /\
    system_inv g' /\ button_pressed g' = 0 /\ at_start g' /\
    message_ended g' = 0.
Proof.
  intros Hinv Hbp Hst.
  pose proof Hinv as (Hmi & Hsel & _).
  destruct Hsel as [[_ Hnext] | [Hbp1 _]]; [|lia].
  destruct (messages_wellformed g Hmi) as (Hm & Hfree & Hlen & _).
  pose proof (button_step_range b) as Hb. unfold num_messages in Hmi.
  (* the press *)
  set (g1 := press b g).
  assert (Hg1 : g1 = set_button_pressed 1
                  (set_next_message_index (message_index g + button_step b) g)).
  { unfold g1. rewrite (press_unlatched b g Hbp), Hnext.
    now rewrite CIntFacts.to_uchar_small by lia. }
  (* the traversal *)
  destruct (traversal_patterns messages g1 (current_message g))
    as (g2 & Hrun & Hpat & Hmi2 & Hbp2 & Hnext2 & He2 & Hst2);
    try assumption.
  { rewrite Hg1. exact Hm. }
  { rewrite Hg1. exact Hst. }
  (* the invariant before the selection test *)
  assert (Hexec : exec (Press b :: repeat Tick (traversal_steps (current_message g)))
                    g = Some g2).
  { simpl. fold g1. now rewrite exec_ticks. }
  destruct (system_inv_exec
              (Press b :: repeat Tick (traversal_steps (current_message g)))
              g Hinv) as (g2' & Hexec' & Hinv2).
  rewrite Hexec in Hexec'. injection Hexec' as <-.
  assert (Hcond : apply_condition g2 = true).
  { unfold apply_condition. rewrite Hmi2, Hnext2, He2, Hg1. cbn.
    apply andb_true_iff. split; [|reflexivity].
    apply negb_true_iff, Z.eqb_neq. lia. }
  destruct (try_apply_fires g2 Hinv2 Hcond) as (_ & _ & _ & _ & Happly).
  exists (try_apply g2). split.
  - unfold play_and_select, select_events.
    change (Press b :: repeat Tick (traversal_steps (current_message g)) ++ [Apply])
      with ((Press b :: repeat Tick (traversal_steps (current_message g))) ++ [Apply]).
    now rewrite exec_app, Hexec.
  - split; [|split; [|split; [now apply system_inv_apply|]]].
    + rewrite Happly. cbn. rewrite Hnext2, Hg1. cbn.
      apply normalize_message_index_small. lia.
    + rewrite Happly. cbn.
      rewrite (led_calls_run messages _ g1 g2 Hrun), Hpat, Hg1. reflexivity.
    + rewrite Happly. cbn. repeat split; apply Hst2.
Qed.

Lemma reachable_play_and_select (b : button) (g g' : Globals) :
  reachable g -> play_and_select b g = Some g' -> reachable g'.
Proof.
  intros [evs Hevs] H. exists (evs ++ select_events b g).
  now rewrite exec_app, Hevs.
Qed.

(** X7. A press of button 0 at the start of a message, the calls that
    play the message to its end and the selection test of the main loop
    select the following message, a press of button 1 the previous one
    (the index moves by 1, or by [num_messages - 1], modulo
    [num_messages]); the message in progress is written in full before,
    and the new message starts from its first symbol with no press
    pending. *)
Theorem play_and_select_moves :
  forall (b : button) (g : Globals),
    reachable g -> button_pressed g = 0 -> at_start g ->
    exists g',
      play_and_select b g = Some g' /\
      message_index g' = (message_index g + button_step b) mod num_messages /\
      led_calls g' = led_calls g ++ message_patterns (current_message g) /\
      button_pressed g' = 0 /\ at_start g' /\ message_ended g' = 0.
Proof.
  intros b g Hreach Hbp Hst.
  destruct (play_and_select_spec b g (reachable_system_inv g Hreach) Hbp Hst)
    as (g' & H & Hmi & Hled & _ & Hrest).
  exists g'. split; [exact H|]. split; [exact Hmi|]. split; [exact Hled|].
  exact Hrest.
Qed.

Lemma play_and_select_moves_witness :
  reachable initial_globals /\
  exists g',
    play_and_select CONFIG_GPIO_BUTTON_1 initial_globals = Some g' /\
    message_index g' = 2.
Proof.
  assert (Hreach : reachable initial_globals) by (exists []; reflexivity).
  split; [exact Hreach|].
  destruct (play_and_select_moves CONFIG_GPIO_BUTTON_1 initial_globals Hreach
              eq_refl ltac:(repeat split))
    as (g' & H & Hmi & _).
  exists g'. split; [exact H | exact Hmi].
Defined.

(** X8. Selections round-trip: three selections with button 0 lead back to
    the message they started from, and so does a selection with one button
    followed by a selection with the other. *)
Theorem play_and_select_round_trips :
  forall g : Globals,
    reachable g -> button_pressed g = 0 -> at_start g ->
    (exists g1 g2 g3,
       play_and_select CONFIG_GPIO_BUTTON_0 g = Some g1 /\
       play_and_select CONFIG_GPIO_BUTTON_0 g1 = Some g2 /\
       play_and_select CONFIG_GPIO_BUTTON_0 g2 = Some g3 /\
       message_index g3 = message_index g) /\
    (exists g1 g2,
       play_and_select CONFIG_GPIO_BUTTON_0 g = Some g1 /\
       play_and_select CONFIG_GPIO_BUTTON_1 g1 = Some g2 /\
       message_index g2 = message_index g) /\
    (exists g1 g2,
       play_and_select CONFIG_GPIO_BUTTON_1 g = Some g1 /\
       play_and_select CONFIG_GPIO_BUTTON_0 g1 = Some g2 /\
       message_index g2 = message_index g).
Proof.
  intros g Hreach Hbp Hst.
  pose proof (reachable_system_inv g Hreach) as Hinv.
  pose proof Hinv as (Hmi & _). unfold num_messages in Hmi.
  assert (Hcases : message_index g = 0 \/ message_index g = 1 \/
                   message_index g = 2) by lia.
  split; [|split].
  - destruct (play_and_select_spec CONFIG_GPIO_BUTTON_0 g Hinv Hbp Hst)
      as (g1 & H1 & Hmi1 & _ & Hinv1 & Hbp1 & Hst1 & _).
    destruct (play_and_select_spec CONFIG_GPIO_BUTTON_0 g1 Hinv1 Hbp1 Hst1)
      as (g2 & H2 & Hmi2 & _ & Hinv2 & Hbp2 & Hst2 & _).
    destruct (play_and_select_spec CONFIG_GPIO_BUTTON_0 g2 Hinv2 Hbp2 Hst2)
      as (g3 & H3 & Hmi3 & _).
    exists g1, g2, g3. repeat split; try assumption.
    rewrite Hmi3, Hmi2, Hmi1.
    destruct Hcases as [-> | [-> | ->]]; reflexivity.
  - destruct (play_and_select_spec CONFIG_GPIO_BUTTON_0 g Hinv Hbp Hst)
      as (g1 & H1 & Hmi1 & _ & Hinv1 & Hbp1 & Hst1 & _).
    destruct (play_and_select_spec CONFIG_GPIO_BUTTON_1 g1 Hinv1 Hbp1 Hst1)
      as (g2 & H2 & Hmi2 & _).
    exists g1, g2. repeat split; try assumption.
    rewrite Hmi2, Hmi1.
    destruct Hcases as [-> | [-> | ->]]; reflexivity.
  - destruct (play_and_select_spec CONFIG_GPIO_BUTTON_1 g Hinv Hbp Hst)
      as (g1 & H1 & Hmi1 & _ & Hinv1 & Hbp1 & Hst1 & _).
    destruct (play_and_select_spec CONFIG_GPIO_BUTTON_0 g1 Hinv1 Hbp1 Hst1)
      as (g2 & H2 & Hmi2 & _).
    exists g1, g2. repeat split; try assumption.
    rewrite Hmi2, Hmi1.
    destruct Hcases as [-> | [-> | ->]]; reflexivity.
Qed.

Lemma play_and_select_round_trips_witness :
  reachable initial_globals /\
  exists g1 g2,
    play_and_select CONFIG_GPIO_BUTTON_0 initial_globals = Some g1 /\
    play_and_select CONFIG_GPIO_BUTTON_1 g1 = Some g2 /\
    message_index g2 = 0.
Proof.
  assert (Hreach : reachable initial_globals) by (exists []; reflexivity).
  split; [exact Hreach|].
  destruct (play_and_select_round_trips initial_globals Hreach
              eq_refl ltac:(repeat split))
    as (_ & (g1 & g2 & H1 & H2 & Hmi) & _).
  exists g1, g2. repeat split; assumption.
Defined.

(** ** When a selection takes effect *)

(** X9. A message is never interrupted: in every state the program
    reaches, if the selection test changes [message_index], then the
    message in progress has just ended and the cursor is at its start, and
    it stays at the start for the new message. *)
Theorem selection_only_between_messages :
  forall g : Globals,
    reachable g ->
    message_index (try_apply g) <> message_index g ->
    message_ended g = 1 /\ button_pressed g = 1 /\
    at_start g /\ at_start (try_apply g).
Proof.
  intros g Hreach Hchange.
  pose proof (reachable_system_inv g Hreach) as Hinv.
  destruct (apply_condition g) eqn:Hcond.
  - destruct (try_apply_fires g Hinv Hcond) as (Hbp & He & Hst & _ & Happly).
    repeat split; try assumption; try apply Hst;
      rewrite Happly; cbn; apply Hst.
  - contradiction Hchange. unfold try_apply. now rewrite Hcond.
Qed.

Lemma selection_only_between_messages_witness :
  exists g,
    exec (Press CONFIG_GPIO_BUTTON_0 :: repeat Tick 32) initial_globals = Some g /\
    message_index (try_apply g) <> message_index g /\
    at_start g.
Proof.
  eexists. split; [vm_compute; reflexivity|].
  match goal with
  | |- message_index (try_apply ?g0) <> _ /\ _ =>
      assert (Hreach : reachable g0)
        by (exists (Press CONFIG_GPIO_BUTTON_0 :: repeat Tick 32);
            vm_compute; reflexivity);
      assert (Hne : message_index (try_apply g0) <> message_index g0)
        by (vm_compute; intros H; discriminate H);
      destruct (selection_only_between_messages g0 Hreach Hne)
        as (_ & _ & Hst & _)
  end.
  split; [exact Hne | exact Hst].
Defined.

(** No call sets the flag, so a flag that is 0 stays 0. *)
Lemma quiet_keeps_unset (msgs : list string) (n : nat) :
  forall g g', quiet n msgs g = true -> run n msgs g = Some g' ->
    message_ended g = 0 -> message_ended g' = 0.
Proof.
  induction n as [|n IH]; intros g g'; simpl.
  - now intros _ [= ->].
  - pose proof (message_ended_step msgs g) as He.
    destruct (signal_message msgs g) as [g1|]; [|discriminate].
    intros Hq Hrun H0. apply andb_true_iff in Hq. destruct Hq as [Hset Hq].
    apply negb_true_iff in Hset. rewrite Hset in He.
    apply (IH g1 g' Hq Hrun). rewrite He.
    destruct (current_character msgs g) as [c|]; [|reflexivity].
    now destruct (is_nul c).
Qed.

(** In the middle of a traversal [message_ended] is 0. *)
Lemma mid_traversal_not_ended (msgs : list string) (g : Globals)
      (message : string) (k : nat) :
  nth_error msgs (Z.to_nat (message_index g)) = Some message ->
  message <> ""%string ->
  nul_free message = true -> strlen message < 65536 ->
  at_start g ->
  (1 <= k < traversal_steps message)%nat ->
  exists gk, run k msgs g = Some gk /\ message_ended gk = 0.
Proof.
  intros Hm Hne Hfree Hlen Hst Hk.
  destruct (traversal msgs g message Hm Hfree Hlen Hst)
    as (g1 & _ & [Hrun Hq] & _).
  destruct (start_clears_message_ended msgs g message Hm Hne Hfree Hst)
    as (ga & Hstep & Hea).
  unfold traversal_steps in Hk.
  replace (characters_steps message + 5)%nat
    with (1 + ((k - 1) + (characters_steps message + 5 - k)))%nat in Hrun, Hq
    by lia.
  assert (Hrun1 : run 1 msgs g = Some ga) by (simpl; now rewrite Hstep).
  rewrite run_add, Hrun1 in Hrun.
  rewrite (quiet_add msgs 1 _ g ga Hrun1) in Hq.
  apply andb_true_iff in Hq. destruct Hq as [_ Hq].
  rewrite run_add in Hrun.
  destruct (run (k - 1) msgs ga) as [gk|] eqn:Hrunk; [|discriminate].
  rewrite (quiet_add msgs (k - 1) _ ga gk Hrunk) in Hq.
  apply andb_true_iff in Hq. destruct Hq as [Hqk _].
  exists gk. split.
  - replace k with (1 + (k - 1))%nat at 1 by lia.
    now rewrite run_add, Hrun1.
  - exact (quiet_keeps_unset msgs (k - 1) ga gk Hqk Hrunk Hea).
Qed.

(** X10. A press made at the start of a message is not applied before the
    message has ended: if the selection test runs after any number of
    calls short of a full traversal, the message index is unchanged and
    the press is still pending, with the requested index one step on. *)
Theorem press_waits_for_end :
  forall (b : button) (g : Globals) (k : nat),
    reachable g -> button_pressed g = 0 -> at_start g ->
    (1 <= k < traversal_steps (current_message g))%nat ->
    exists g',
      exec (Press b :: repeat Tick k ++ [Apply]) g = Some g' /\
      message_index g' = message_index g /\
      button_pressed g' = 1 /\
      next_message_index g' = message_index g + button_step b.
Proof.
  intros b g k Hreach Hbp Hst Hk.
  pose proof (reachable_system_inv g Hreach) as Hinv.
  pose proof Hinv as (Hmi & Hsel & _).
  destruct Hsel as [[_ Hnext] | [Hbp1 _]]; [|lia].
  destruct (messages_wellformed g Hmi) as (Hm & Hfree & Hlen & Hne).
  pose proof (button_step_range b) as Hb. unfold num_messages in Hmi.
  assert (Hg1 : press b g = set_button_pressed 1
                  (set_next_message_index (message_index g + button_step b) g)).
  { rewrite (press_unlatched b g Hbp), Hnext.
    now rewrite CIntFacts.to_uchar_small by lia. }
  destruct (mid_traversal_not_ended messages (press b g) (current_message g) k)
    as (gk & Hrun & He); try assumption.
  { rewrite Hg1. exact Hm. }
  { rewrite Hg1. exact Hst. }
  destruct (run_selection messages k _ _ Hrun) as (Hmik & Hbpk & Hnextk).
  exists gk. split.
  - simpl. rewrite exec_app, exec_ticks, Hrun. simpl.
    unfold try_apply, apply_condition. rewrite He.
    now rewrite andb_false_r.
  - rewrite Hmik, Hbpk, Hnextk, Hg1. cbn. repeat split.
Qed.

Lemma press_waits_for_end_witness :
  reachable initial_globals /\
  (1 <= 31 < traversal_steps (current_message initial_globals))%nat /\
  exists g',
    exec (Press CONFIG_GPIO_BUTTON_0 :: repeat Tick 31 ++ [Apply])
         initial_globals = Some g' /\
    message_index g' = 0 /\ button_pressed g' = 1.
Proof.
  assert (Hreach : reachable initial_globals) by (exists []; reflexivity).
  assert (Hk : (1 <= 31 < traversal_steps (current_message initial_globals))%nat)
    by (vm_compute; lia).
  split; [exact Hreach|]. split; [exact Hk|].
  destruct (press_waits_for_end CONFIG_GPIO_BUTTON_0 initial_globals 31
              Hreach eq_refl ltac:(repeat split) Hk)
    as (g' & H & Hmi & Hbp & _).
  exists g'. repeat split; assumption.
Defined.

(** X11. Without a press the message never changes: from a state with no
    request outstanding, any sequence of ticks and selection tests leaves
    [message_index] as it is. *)
Theorem no_press_no_change :
  forall (evs : list event) (g g' : Globals),
    next_message_index g = message_index g ->
    forallb (fun e => negb (is_press e)) evs = true ->
    exec evs g = Some g' ->
    message_index g' = message_index g /\
    next_message_index g' = message_index g'.
Proof.
  induction evs as [|e evs IH]; intros g g' Hnext Hno; simpl.
  - intros [= <-]. split; [reflexivity | exact Hnext].
  - simpl in Hno. apply andb_true_iff in Hno. destruct Hno as [He Hno].
    destruct e as [| |b]; simpl in *; [| |discriminate He].
    + pose proof (selection_step messages g) as Hsel.
      destruct (signal_message messages g) as [g1|]; [|discriminate].
      destruct Hsel as (Hmi & _ & Hn1). intros H.
      destruct (IH g1 g' ltac:(congruence) Hno H) as [H1 H2].
      split; congruence.
    + assert (Hid : try_apply g = g).
      { unfold try_apply, apply_condition. rewrite Hnext, Z.eqb_refl.
        reflexivity. }
      rewrite Hid. now apply IH.
Qed.

Lemma no_press_no_change_witness :
  next_message_index initial_globals = message_index initial_globals /\
  exists g',
    exec (repeat Tick 40 ++ [Apply; Tick; Apply]) initial_globals = Some g' /\
    message_index g' = 0.
Proof.
  split; [reflexivity|].
  eexists. split; [vm_compute; reflexivity|].
  match goal with
  | |- message_index ?g0 = 0 =>
      assert (Hexec : exec (repeat Tick 40 ++ [Apply; Tick; Apply])
                        initial_globals = Some g0)
        by (vm_compute; reflexivity);
      exact (proj1 (no_press_no_change
                      (repeat Tick 40 ++ [Apply; Tick; Apply])
                      initial_globals g0 eq_refl eq_refl Hexec))
  end.
Defined.

(** ** The selection variables *)

(** X12. [signal_message] never writes the selection variables: after a
    call [message_index], [button_pressed] and [next_message_index] are as
    before, so a press recorded by a handler is never lost to the engine. *)
Theorem signal_message_keeps_selection :
  forall (msgs : list string) (g : Globals),
    match signal_message msgs g with
    | Some g' =>
        message_index g' = message_index g /\
        button_pressed g' = button_pressed g /\
        next_message_index g' = next_message_index g
    | None => True
    end.
Proof. exact selection_step. Qed.

(** X13. The first press wins: a press that finds no press pending adds
    the step of its button to [next_message_index] (in an unsigned char)
    and sets [button_pressed]; any press after it, of either button,
    changes nothing. *)
Theorem first_press_wins :
  forall (b1 b2 : button) (g : Globals),
    press b2 (press b1 g) = press b1 g /\
    (button_pressed g = 0 ->
     next_message_index (press b1 g) =
       (next_message_index g + button_step b1) mod 256 /\
     button_pressed (press b1 g) = 1 /\
     message_index (press b1 g) = message_index g /\
     message_ended (press b1 g) = message_ended g).
Proof.
  intros b1 b2 g. split.
  - apply button_latched.
    destruct b1; [apply gpioButtonFxn0_latches | apply gpioButtonFxn1_latches].
  - intros H. rewrite (press_unlatched b1 g H). cbn. repeat split.
Qed.

Lemma first_press_wins_witness :
  button_pressed initial_globals = 0 /\
  next_message_index (press CONFIG_GPIO_BUTTON_1 initial_globals) = 2 /\
  press CONFIG_GPIO_BUTTON_0 (press CONFIG_GPIO_BUTTON_1 initial_globals) =
    press CONFIG_GPIO_BUTTON_1 initial_globals.
Proof.
  split; [reflexivity|].
  destruct (first_press_wins CONFIG_GPIO_BUTTON_1 CONFIG_GPIO_BUTTON_0
              initial_globals) as [Hwins Hfirst].
  destruct (Hfirst eq_refl) as (Hnext & _).
  split; [rewrite Hnext; reflexivity | exact Hwins].
Defined.

(** X14. [normalize_message_index] is the remainder modulo the number of
    messages of its argument taken as an unsigned short; so it returns a
    valid index unchanged and normalising twice is normalising once. *)
Theorem normalize_message_index_mod :
  forall index : Z,
    normalize_message_index index = (index mod 65536) mod num_messages /\
    normalize_message_index (normalize_message_index index) =
      normalize_message_index index /\
    (0 <= index < num_messages -> normalize_message_index index = index).
Proof.
  intros index.
  assert (Hmod : forall i, normalize_message_index i =
                           (i mod 65536) mod num_messages).
  { intros i. unfold normalize_message_index, num_messages, CInt.to_ushort.
    pose proof (Z.mod_pos_bound i 65536 ltac:(lia)) as Hi.
    rewrite Z.rem_mod_nonneg by lia.
    pose proof (Z.mod_pos_bound (i mod 65536) 3 ltac:(lia)).
    apply Z.mod_small. lia. }
  assert (Hfix : forall i, 0 <= i < num_messages ->
                           normalize_message_index i = i).
  { intros i Hi. unfold num_messages in Hi. rewrite Hmod. unfold num_messages.
    rewrite (Z.mod_small i 65536) by lia. apply Z.mod_small. lia. }
  split; [apply Hmod|]. split; [|apply Hfix].
  apply Hfix, normalize_message_index_range.
Qed.

Lemma normalize_message_index_mod_witness :
  0 <= 2 < num_messages /\
  normalize_message_index 2 = 2 /\
  normalize_message_index 65536 = 0.
Proof.
  assert (H : 0 <= 2 < num_messages) by (unfold num_messages; lia).
  split; [exact H|].
  destruct (normalize_message_index_mod 2) as (_ & _ & Hfix).
  split; [exact (Hfix H)|].
  destruct (normalize_message_index_mod 65536) as (Hmod & _).
  rewrite Hmod. reflexivity.
Defined.

Lemma try_apply_settles (g : Globals) :
  apply_condition g = true ->
  apply_condition (try_apply g) = false /\
  next_message_index (try_apply g) = message_index (try_apply g) /\
  button_pressed (try_apply g) = 0 /\
  message_ended (try_apply g) = 0.
Proof.
  intros Hcond. unfold try_apply. rewrite Hcond.
  pose proof (normalize_message_index_range (next_message_index g)) as Hr.
  unfold num_messages in Hr.
  rewrite CIntFacts.to_uchar_small, CIntFacts.to_ushort_small by lia.
  unfold apply_condition. cbn. rewrite andb_false_r. repeat split.
Qed.

Lemma try_apply_twice (g : Globals) : try_apply (try_apply g) = try_apply g.
Proof.
  destruct (apply_condition g) eqn:Hcond.
  - destruct (try_apply_settles g Hcond) as (Hno & _).
    unfold try_apply at 1. now rewrite Hno.
  - unfold try_apply. now rewrite !Hcond.
Qed.

(** X15. Running the selection test twice is running it once: when it
    fires it leaves no request outstanding (the requested index is the
    current index and both flags are cleared), so it cannot fire again. *)
Theorem try_apply_idempotent :
  forall g : Globals,
    try_apply (try_apply g) = try_apply g /\
    (apply_condition g = true ->
     apply_condition (try_apply g) = false /\
     next_message_index (try_apply g) = message_index (try_apply g) /\
     button_pressed (try_apply g) = 0 /\
     message_ended (try_apply g) = 0).
Proof.
  intros g. split; [apply try_apply_twice | apply try_apply_settles].
Qed.

Lemma try_apply_idempotent_witness :
  exists g,
    exec (Press CONFIG_GPIO_BUTTON_0 :: repeat Tick 32) initial_globals = Some g /\
    apply_condition g = true /\
    apply_condition (try_apply g) = false.
Proof.
  eexists. split; [vm_compute; reflexivity|].
  match goal with
  | |- apply_condition ?g0 = true /\ _ =>
      assert (Hcond : apply_condition g0 = true) by (vm_compute; reflexivity);
      destruct (try_apply_idempotent g0) as (_ & Hfire);
      destruct (Hfire Hcond) as (Hno & _)
  end.
  split; [exact Hcond | exact Hno].
Defined.

(** X16. What the program keeps true in every state it reaches: the
    message index is valid; either no press is pending and the requested
    index is the current one, or one press is pending and the requested
    index is one or two ahead, so [next_message_index] is at most 4 and
    never wraps; [message_ended] is 0 or 1, and 1 only with the cursor at
    the start of the message; the cursor invariant holds. *)
Theorem reachable_invariant :
  forall g : Globals,
    reachable g ->
    0 <= message_index g < num_messages /\
    ((button_pressed g = 0 /\ next_message_index g = message_index g) \/
     (button_pressed g = 1 /\
      (next_message_index g = message_index g + 1 \/
       next_message_index g = message_index g + 2))) /\
    0 <= next_message_index g <= 4 /\
    (message_ended g = 0 \/ (message_ended g = 1 /\ at_start g)) /\
    cursor_inv messages g = true.
Proof.
  intros g Hreach.
  destruct (reachable_system_inv g Hreach) as (Hmi & Hsel & Hcur & Hend).
  unfold num_messages in *.
  split; [exact Hmi|]. split; [|split; [|split; [exact Hend | exact Hcur]]].
  - destruct Hsel as [[H1 H2] | [H1 [H2 | H2]]].
    + left. now split.
    + right. split; [exact H1 | now left].
    + right. split; [exact H1 | right; lia].
  - destruct Hsel as [[_ H] | [_ [H | H]]]; lia.
Qed.

Lemma reachable_invariant_witness :
  exists g,
    exec (Press CONFIG_GPIO_BUTTON_1 :: repeat Tick 12) initial_globals = Some g /\
    button_pressed g = 1 /\
    cursor_inv messages g = true.
Proof.
  eexists. split; [vm_compute; reflexivity|].
  match goal with
  | |- button_pressed ?g0 = 1 /\ _ =>
      assert (Hreach : reachable g0)
        by (exists (Press CONFIG_GPIO_BUTTON_1 :: repeat Tick 12);
            vm_compute; reflexivity);
      destruct (reachable_invariant g0 Hreach) as (_ & _ & _ & _ & Hcur)
  end.
  split; [reflexivity | exact Hcur].
Defined.

(** ** The loop of [mainThread], iterated *)

Lemma mainThread_iteration_idle (msgs : list string) (checkTime : Z)
      (g : Globals) :
  0 <= checkTime < checkPeriod ->
  mainThread_iteration msgs checkTime g = Some (checkTime + 100, try_apply g).
Proof.
  unfold checkPeriod. intros H. unfold mainThread_iteration, checkPeriod.
  destruct (Z.leb_spec 500 checkTime); [lia|].
  now rewrite Z.mod_small by lia.
Qed.

Lemma mainThread_loop_steady (n : nat) :
  forall (checkTime : Z) (g : Globals),
    checkPeriod <= checkTime ->
    checkTime + 100 * Z.of_nat n < 2 ^ 32 ->
    mainThread_loop n messages checkTime g =
    option_map (fun g' => (checkTime + 100 * Z.of_nat n, g'))
               (exec (concat (repeat [Tick; Apply] n)) g).
Proof.
  unfold checkPeriod.
  induction n as [|n IH]; intros t g Ht Hn.
  - simpl. now rewrite Z.add_0_r.
  - cbn [mainThread_loop repeat concat app exec do_event].
    unfold mainThread_iteration, checkPeriod.
    destruct (Z.leb_spec 500 t); [|lia].
    destruct (signal_message messages g) as [g1|]; [|reflexivity].
    rewrite Z.mod_small by lia.
    rewrite IH by lia.
    destruct (exec (concat (repeat [Tick; Apply] n)) (try_apply g1));
      cbn [option_map]; [|reflexivity].
    do 2 f_equal. lia.
Qed.

(** X17. The main loop calls [signal_message] in none of its first five
    iterations, in which its counter goes from 0 to [checkPeriod]; the
    LEDs are not written and at most a selection is applied.  From then on
    every iteration makes one call of [signal_message] followed by the
    selection test, for as long as the 32-bit counter has not wrapped. *)
Theorem mainThread_loop_schedule :
  (forall (msgs : list string) (g : Globals),
     mainThread_loop 5 msgs 0 g = Some (checkPeriod, try_apply g) /\
     led_calls (try_apply g) = led_calls g) /\
  (forall (n : nat) (checkTime : Z) (g : Globals),
     checkPeriod <= checkTime ->
     checkTime + 100 * Z.of_nat n < 2 ^ 32 ->
     mainThread_loop n messages checkTime g =
     option_map (fun g' => (checkTime + 100 * Z.of_nat n, g'))
                (exec (concat (repeat [Tick; Apply] n)) g)).
Proof.
  split.
  - intros msgs g. split.
    + cbn [mainThread_loop].
      rewrite (mainThread_iteration_idle msgs 0 g) by (unfold checkPeriod; lia).
      rewrite (mainThread_iteration_idle msgs (0 + 100)) by (unfold checkPeriod; lia).
      rewrite (mainThread_iteration_idle msgs (0 + 100 + 100))
        by (unfold checkPeriod; lia).
      rewrite (mainThread_iteration_idle msgs (0 + 100 + 100 + 100))
        by (unfold checkPeriod; lia).
      rewrite (mainThread_iteration_idle msgs (0 + 100 + 100 + 100 + 100))
        by (unfold checkPeriod; lia).
      now rewrite !try_apply_twice.
    + unfold try_apply. now destruct (apply_condition g).
  - exact mainThread_loop_steady.
Qed.

Lemma mainThread_loop_schedule_witness :
  checkPeriod <= 500 /\ 500 + 100 * Z.of_nat 2 < 2 ^ 32 /\
  mainThread_loop 2 messages 500 initial_globals =
  option_map (fun g' => (700, g'))
             (exec [Tick; Apply; Tick; Apply] initial_globals).
Proof.
  assert (H1 : checkPeriod <= 500) by (unfold checkPeriod; lia).
  assert (H2 : 500 + 100 * Z.of_nat 2 < 2 ^ 32) by (cbn; lia).
  split; [exact H1|]. split; [exact H2|].
  exact (proj2 mainThread_loop_schedule 2%nat 500 initial_globals H1 H2).
Defined.
